(** * The native-call ABI layer of the x64 emitter (x64ABI.cpp)

    A shallow embedding of [Source/Core/Common/Src/x64ABI.cpp]: the frame
    alignment calculator, the stack adjustment emitters, the register
    save/restore unit and the call-site builders, together with a small
    model of the x86 stack machine on which the emitted sequences run. *)

From Stdlib Require Import ZArith List Bool Lia.
Import ListNotations.
Local Open Scope Z_scope.

(** ** Build targets

    The source selects its code with the preprocessor symbols [_M_X64],
    [_M_IX86] and [_WIN32]; a build defines exactly one of the first two.
    The four builds are the values of [ABI]. *)

Inductive ABI : Type := Win32 | Unix32 | Win64 | Unix64.

Definition M_X64 (abi : ABI) : bool :=
  match abi with Win64 | Unix64 => true | Win32 | Unix32 => false end.

Definition M_IX86 (abi : ABI) : bool := negb (M_X64 abi).

Definition WIN32 (abi : ABI) : bool :=
  match abi with Win32 | Win64 => true | Unix32 | Unix64 => false end.

(** ** C integer types: conversion to an unsigned type reduces modulo 2^w *)

Definition u8 (x : Z) : Z := x mod 2 ^ 8.
Definition u16 (x : Z) : Z := x mod 2 ^ 16.
Definition u32 (x : Z) : Z := x mod 2 ^ 32.
Definition u64 (x : Z) : Z := x mod 2 ^ 64.

(** ** Frame alignment calculator (x64ABI.cpp, lines 12-34) *)

Definition ABI_GetAlignedFrameSize (abi : ABI) (frameSize : Z) (noProlog : bool) : Z :=
  if M_X64 abi then
    (* expect frameSize == 0 *)
    if noProlog then 0x28 else 0
  else if WIN32 abi then
    Z.land (u32 (frameSize + 3)) (u32 (-4))
  else
    let existingAlignment := if noProlog then 0xc else 0 in
    let frameSize := u32 (frameSize - existingAlignment) in
    let frameSize := Z.land (u32 (frameSize + 15)) (u32 (-16)) in
    let frameSize := u32 (frameSize + existingAlignment) in
    frameSize.

(** The words of the specification for the non-Windows case: round the
    remainder up to the next multiple of 16. *)
Definition round_up (k x : Z) : Z := k * ((x + (k - 1)) / k).

Definition spec_aligned_frame_size (consumed frameSize : Z) : Z :=
  u32 (round_up 16 (u32 (frameSize - consumed)) + consumed).

(** ** Registers and operands

    [X64Reg] is the enumeration of x64Emitter.h; its values are the
    hardware register numbers, and the source converts loop counters to it
    with a cast, so it is kept as an integer.  [ESP] and [RSP] are the same
    register number. *)

Abbreviation X64Reg := Z (only parsing).

Definition RAX : X64Reg := 0.
Definition RCX : X64Reg := 1.
Definition RDX : X64Reg := 2.
Definition RBX : X64Reg := 3.
Definition RSP : X64Reg := 4.
Definition RBP : X64Reg := 5.
Definition RSI : X64Reg := 6.
Definition RDI : X64Reg := 7.
Definition R8 : X64Reg := 8.
Definition R9 : X64Reg := 9.
Definition ESP : X64Reg := RSP.
Definition R12 : X64Reg := 12.
Definition R13 : X64Reg := 13.
Definition R14 : X64Reg := 14.
Definition R15 : X64Reg := 15.
Definition EBX : X64Reg := RBX.
Definition EBP : X64Reg := RBP.
Definition ESI : X64Reg := RSI.
Definition EDI : X64Reg := RDI.

(** Operands, as the helpers of x64Emitter.h build them (the header is not
    among the sources): a direct register, an immediate of a given width,
    or a memory operand (absolute, base plus displacement, or scaled
    index). *)
Inductive OpArg : Type :=
| R (reg : X64Reg)
| Imm (bits : Z) (value : Z)
| M (addr : Z)
| MDisp (base : X64Reg) (disp : Z)
| MComplex (base index : X64Reg) (scale disp : Z).

(** The immediate constructors take their argument as [u8], [u16], [u32]
    and [u64]: the conversion at the call truncates. *)
Definition Imm8 (imm : Z) : OpArg := Imm 8 (u8 imm).
Definition Imm16 (imm : Z) : OpArg := Imm 16 (u16 imm).
Definition Imm32 (imm : Z) : OpArg := Imm 32 (u32 imm).
Definition Imm64 (imm : Z) : OpArg := Imm 64 (u64 imm).

Definition IsSimpleReg (arg : OpArg) (reg : X64Reg) : bool :=
  match arg with R r => r =? reg | _ => false end.

(** Modelled from the spec: x64ABI.h is not among the sources.  The
    argument registers are those of the two 64-bit conventions the spec
    names, Windows (RCX, RDX, R8, R9) and Unix (RDI, RSI, RDX, RCX). *)
Definition ABI_PARAM1 (abi : ABI) : X64Reg := if WIN32 abi then RCX else RDI.
Definition ABI_PARAM2 (abi : ABI) : X64Reg := if WIN32 abi then RDX else RSI.
Definition ABI_PARAM3 (abi : ABI) : X64Reg := if WIN32 abi then R8 else RDX.
Definition ABI_PARAM4 (abi : ABI) : X64Reg := if WIN32 abi then R9 else RCX.

(** ** Emitted instructions

    One constructor per emitter operation that x64ABI.cpp calls; the two
    overloads of PUSH and of MOVAPD are separate constructors. *)
Inductive Instr : Type :=
| iPUSH (reg : X64Reg)
| iPOP (reg : X64Reg)
| iPUSHw (bits : Z) (arg : OpArg)
| iMOV (bits : Z) (dst src : OpArg)
| iADD (bits : Z) (dst src : OpArg)
| iSUB (bits : Z) (dst src : OpArg)
| iMOVAPD_store (dst : OpArg) (src : X64Reg)
| iMOVAPD_load (dst : X64Reg) (src : OpArg)
| iCALL (fnptr : Z)
| iCALLptr (arg : OpArg).

(** ** The emitter object

    [code] is the current write address, [emitted] what has been written so
    far.  Every method of [XEmitter] returns [void] and updates the object:
    a method is a function from emitter to emitter. *)
Record XEmitter : Type := mkXEmitter { code : Z; emitted : list Instr }.

Definition Emit : Type := XEmitter -> XEmitter.

Definition seq_emit (a b : Emit) : Emit := fun e => b (a e).
Notation "a ;; b" := (seq_emit a b) (at level 61, left associativity).

Definition skip : Emit := fun e => e.

(** [for (int r = from; r < from + n; r++) body] and
    [for (int r = from; r > from - n; r--) body], over any loop state. *)
Fixpoint for_up {St : Type} (n : nat) (r : Z) (body : Z -> St -> St) (s : St) : St :=
  match n with
  | O => s
  | S n' => for_up n' (r + 1) body (body r s)
  end.

Fixpoint for_down {St : Type} (n : nat) (r : Z) (body : Z -> St -> St) (s : St) : St :=
  match n with
  | O => s
  | S n' => for_down n' (r - 1) body (body r s)
  end.

(** [mask & (1 << r)] as a condition. *)
Definition mask_has (mask r : Z) : bool :=
  negb (Z.land mask (Z.shiftl 1 r) =? 0).

Section Emitter.

(** The instruction encoder (x64Emitter.cpp) is not among the sources:
    the number of bytes it writes for an instruction is a parameter. *)
Variable ilen : Instr -> Z.

Definition Write (i : Instr) : Emit :=
  fun e => {| code := u64 (code e + ilen i); emitted := emitted e ++ [i] |}.

Definition PUSH (reg : X64Reg) : Emit := Write (iPUSH reg).
Definition POP (reg : X64Reg) : Emit := Write (iPOP reg).
Definition PUSHw (bits : Z) (arg : OpArg) : Emit := Write (iPUSHw bits arg).
Definition MOV (bits : Z) (dst src : OpArg) : Emit := Write (iMOV bits dst src).
Definition ADD (bits : Z) (dst src : OpArg) : Emit := Write (iADD bits dst src).
Definition SUB (bits : Z) (dst src : OpArg) : Emit := Write (iSUB bits dst src).
Definition MOVAPD_store (dst : OpArg) (src : X64Reg) : Emit :=
  Write (iMOVAPD_store dst src).
Definition MOVAPD_load (dst : X64Reg) (src : OpArg) : Emit :=
  Write (iMOVAPD_load dst src).
Definition CALL (fnptr : Z) : Emit := Write (iCALL fnptr).
Definition CALLptr (arg : OpArg) : Emit := Write (iCALLptr arg).

(** *** Stack adjustment emitters (lines 36-57)

    The declarations in x64Emitter.h give [noProlog] the default [false];
    the calls [ABI_AlignStack(0)] of the source pass it here explicitly. *)

Definition ABI_AlignStack (abi : ABI) (frameSize : Z) (noProlog : bool) : Emit :=
  let fillSize := u32 (ABI_GetAlignedFrameSize abi frameSize noProlog - frameSize) in
  if negb (fillSize =? 0) then
    if M_X64 abi then SUB 64 (R RSP) (Imm8 fillSize)
    else SUB 32 (R ESP) (Imm8 fillSize)
  else skip.

Definition ABI_RestoreStack (abi : ABI) (frameSize : Z) (noProlog : bool) : Emit :=
  let alignedSize := ABI_GetAlignedFrameSize abi frameSize noProlog in
  if negb (alignedSize =? 0) then
    if M_X64 abi then ADD 64 (R RSP) (Imm8 alignedSize)
    else ADD 32 (R ESP) (Imm8 alignedSize)
  else skip.

(** *** Register save/restore unit (lines 59-137) *)

Definition ABI_PushRegistersAndAdjustStack (abi : ABI) (mask : Z) (noProlog : bool) : Emit :=
  fun e =>
  let regSize := if M_X64 abi then 8 else 4 in
  let shadow := if WIN32 abi && M_X64 abi then 0x20 else 0 in
  let '(e, count) :=
    for_up 16 0 (fun r '(e, count) =>
      if mask_has mask r then (PUSH r e, count + 1) else (e, count)) (e, 0) in
  let size := Z.land ((if noProlog then - regSize else 0) - count * regSize) 0xf in
  let size :=
    for_up 16 0 (fun x size =>
      if mask_has mask (16 + x) then size + 16 else size) size in
  let size := size + shadow in
  let e :=
    if negb (size =? 0) then
      SUB (regSize * 8) (R RSP) (if size >=? 0x80 then Imm32 size else Imm8 size) e
    else e in
  let offset := shadow in
  let '(e, offset) :=
    for_up 16 0 (fun x '(e, offset) =>
      if mask_has mask (16 + x)
      then (MOVAPD_store (MDisp RSP offset) x e, offset + 16)
      else (e, offset)) (e, offset) in
  e.

Definition ABI_PopRegistersAndAdjustStack (abi : ABI) (mask : Z) (noProlog : bool) : Emit :=
  fun e =>
  let regSize := if M_X64 abi then 8 else 4 in
  let size := 0 in
  let size := if WIN32 abi && M_X64 abi then size + 0x20 else size in
  let '(e, size) :=
    for_up 16 0 (fun x '(e, size) =>
      if mask_has mask (16 + x)
      then (MOVAPD_load x (MDisp RSP size) e, size + 16)
      else (e, size)) (e, size) in
  let count := 0 in
  let count :=
    for_up 16 0 (fun r count =>
      if mask_has mask r then count + 1 else count) count in
  let size := size + Z.land ((if noProlog then - regSize else 0) - count * regSize) 0xf in
  let e :=
    if negb (size =? 0) then
      ADD (regSize * 8) (R RSP) (if size >=? 0x80 then Imm32 size else Imm8 size) e
    else e in
  for_down 16 15 (fun r e => if mask_has mask r then POP r e else e) e.

End Emitter.

(** ** Call-site builder, 32-bit builds (lines 139-265): arguments are
    pushed on the stack. *)
Module All32.
Section Emitter32.

Variable ilen : Instr -> Z.

Definition ABI_CallFunction (abi : ABI) (func : Z) : Emit :=
  ABI_AlignStack ilen abi 0 false ;;
  CALL ilen func ;;
  ABI_RestoreStack ilen abi 0 false.

Definition ABI_CallFunctionC16 (abi : ABI) (func param1 : Z) : Emit :=
  ABI_AlignStack ilen abi (1 * 2) false ;;
  PUSHw ilen 16 (Imm16 param1) ;;
  CALL ilen func ;;
  ABI_RestoreStack ilen abi (1 * 2) false.

Definition ABI_CallFunctionCC16 (abi : ABI) (func param1 param2 : Z) : Emit :=
  ABI_AlignStack ilen abi (1 * 2 + 1 * 4) false ;;
  PUSHw ilen 16 (Imm16 param2) ;;
  PUSHw ilen 32 (Imm32 param1) ;;
  CALL ilen func ;;
  ABI_RestoreStack ilen abi (1 * 2 + 1 * 4) false.

Definition ABI_CallFunctionC (abi : ABI) (func param1 : Z) : Emit :=
  ABI_AlignStack ilen abi (1 * 4) false ;;
  PUSHw ilen 32 (Imm32 param1) ;;
  CALL ilen func ;;
  ABI_RestoreStack ilen abi (1 * 4) false.

Definition ABI_CallFunctionCC (abi : ABI) (func param1 param2 : Z) : Emit :=
  ABI_AlignStack ilen abi (2 * 4) false ;;
  PUSHw ilen 32 (Imm32 param2) ;;
  PUSHw ilen 32 (Imm32 param1) ;;
  CALL ilen func ;;
  ABI_RestoreStack ilen abi (2 * 4) false.

Definition ABI_CallFunctionCCC (abi : ABI) (func param1 param2 param3 : Z) : Emit :=
  ABI_AlignStack ilen abi (3 * 4) false ;;
  PUSHw ilen 32 (Imm32 param3) ;;
  PUSHw ilen 32 (Imm32 param2) ;;
  PUSHw ilen 32 (Imm32 param1) ;;
  CALL ilen func ;;
  ABI_RestoreStack ilen abi (3 * 4) false.

Definition ABI_CallFunctionCCP (abi : ABI) (func param1 param2 param3 : Z) : Emit :=
  ABI_AlignStack ilen abi (3 * 4) false ;;
  PUSHw ilen 32 (Imm32 (u32 param3)) ;;
  PUSHw ilen 32 (Imm32 param2) ;;
  PUSHw ilen 32 (Imm32 param1) ;;
  CALL ilen func ;;
  ABI_RestoreStack ilen abi (3 * 4) false.

Definition ABI_CallFunctionCCCP (abi : ABI) (func param1 param2 param3 param4 : Z) : Emit :=
  ABI_AlignStack ilen abi (4 * 4) false ;;
  PUSHw ilen 32 (Imm32 (u32 param4)) ;;
  PUSHw ilen 32 (Imm32 param3) ;;
  PUSHw ilen 32 (Imm32 param2) ;;
  PUSHw ilen 32 (Imm32 param1) ;;
  CALL ilen func ;;
  ABI_RestoreStack ilen abi (4 * 4) false.

Definition ABI_CallFunctionPPC (abi : ABI) (func param1 param2 param3 : Z) : Emit :=
  ABI_AlignStack ilen abi (3 * 4) false ;;
  PUSHw ilen 32 (Imm32 param3) ;;
  PUSHw ilen 32 (Imm32 (u32 param2)) ;;
  PUSHw ilen 32 (Imm32 (u32 param1)) ;;
  CALL ilen func ;;
  ABI_RestoreStack ilen abi (3 * 4) false.

(** Pass a register as a parameter. *)
Definition ABI_CallFunctionR (abi : ABI) (func : Z) (reg1 : X64Reg) : Emit :=
  ABI_AlignStack ilen abi (1 * 4) false ;;
  PUSHw ilen 32 (R reg1) ;;
  CALL ilen func ;;
  ABI_RestoreStack ilen abi (1 * 4) false.

(** Pass two registers as parameters. *)
Definition ABI_CallFunctionRR (abi : ABI) (func : Z) (reg1 reg2 : X64Reg)
    (noProlog : bool) : Emit :=
  ABI_AlignStack ilen abi (2 * 4) noProlog ;;
  PUSHw ilen 32 (R reg2) ;;
  PUSHw ilen 32 (R reg1) ;;
  CALL ilen func ;;
  ABI_RestoreStack ilen abi (2 * 4) noProlog.

Definition ABI_CallFunctionAC (abi : ABI) (func : Z) (arg1 : OpArg) (param2 : Z) : Emit :=
  ABI_AlignStack ilen abi (2 * 4) false ;;
  PUSHw ilen 32 (Imm32 param2) ;;
  PUSHw ilen 32 arg1 ;;
  CALL ilen func ;;
  ABI_RestoreStack ilen abi (2 * 4) false.

Definition ABI_CallFunctionA (abi : ABI) (func : Z) (arg1 : OpArg) : Emit :=
  ABI_AlignStack ilen abi (1 * 4) false ;;
  PUSHw ilen 32 arg1 ;;
  CALL ilen func ;;
  ABI_RestoreStack ilen abi (1 * 4) false.

(** The thirteen call shapes of the 32-bit builder and the emitter each
    one stands for. *)
Inductive CallSite : Type :=
| Call
| CallC16 (param1 : Z)
| CallCC16 (param1 param2 : Z)
| CallC (param1 : Z)
| CallCC (param1 param2 : Z)
| CallCCC (param1 param2 param3 : Z)
| CallCCP (param1 param2 param3 : Z)
| CallCCCP (param1 param2 param3 param4 : Z)
| CallPPC (param1 param2 param3 : Z)
| CallR (reg1 : X64Reg)
| CallRR (reg1 reg2 : X64Reg) (noProlog : bool)
| CallAC (arg1 : OpArg) (param2 : Z)
| CallA (arg1 : OpArg).

Definition emit_call_site (abi : ABI) (func : Z) (cs : CallSite) : Emit :=
  match cs with
  | Call => ABI_CallFunction abi func
  | CallC16 p1 => ABI_CallFunctionC16 abi func p1
  | CallCC16 p1 p2 => ABI_CallFunctionCC16 abi func p1 p2
  | CallC p1 => ABI_CallFunctionC abi func p1
  | CallCC p1 p2 => ABI_CallFunctionCC abi func p1 p2
  | CallCCC p1 p2 p3 => ABI_CallFunctionCCC abi func p1 p2 p3
  | CallCCP p1 p2 p3 => ABI_CallFunctionCCP abi func p1 p2 p3
  | CallCCCP p1 p2 p3 p4 => ABI_CallFunctionCCCP abi func p1 p2 p3 p4
  | CallPPC p1 p2 p3 => ABI_CallFunctionPPC abi func p1 p2 p3
  | CallR reg1 => ABI_CallFunctionR abi func reg1
  | CallRR reg1 reg2 noProlog => ABI_CallFunctionRR abi func reg1 reg2 noProlog
  | CallAC arg1 p2 => ABI_CallFunctionAC abi func arg1 p2
  | CallA arg1 => ABI_CallFunctionA abi func arg1
  end.

End Emitter32.
End All32.

(** ** Call-site builder, 64-bit builds (lines 267-491): arguments are
    moved into the argument registers. *)
Module All64.
Section Emitter64.

Variable ilen : Instr -> Z.

(** The block that every 64-bit call emitter repeats verbatim after its
    argument moves (lines 272-280, 287-295, 303-311, 318-326, 334-342,
    351-359, 368-376, 386-394, 403-411, 420-428, 446-454, 464-472 and
    481-489): [code] is read at this point of the emission. *)
Definition far_or_near_call (func : Z) : Emit :=
  fun e =>
  let distance := u64 (u64 func - (u64 (code e) + 5)) in
  if (distance >=? 0x0000000080000000) && (distance <? 0xFFFFFFFF80000000) then
    (* Far call *)
    (MOV ilen 64 (R RAX) (Imm64 (u64 func)) ;; CALLptr ilen (R RAX)) e
  else
    CALL ilen func e.

Definition ABI_CallFunction (abi : ABI) (func : Z) : Emit :=
  ABI_AlignStack ilen abi 0 false ;;
  far_or_near_call func ;;
  ABI_RestoreStack ilen abi 0 false.

Definition ABI_CallFunctionC16 (abi : ABI) (func param1 : Z) : Emit :=
  ABI_AlignStack ilen abi 0 false ;;
  MOV ilen 32 (R (ABI_PARAM1 abi)) (Imm32 (u32 (u16 param1))) ;;
  far_or_near_call func ;;
  ABI_RestoreStack ilen abi 0 false.

Definition ABI_CallFunctionCC16 (abi : ABI) (func param1 param2 : Z) : Emit :=
  ABI_AlignStack ilen abi 0 false ;;
  MOV ilen 32 (R (ABI_PARAM1 abi)) (Imm32 param1) ;;
  MOV ilen 32 (R (ABI_PARAM2 abi)) (Imm32 (u32 (u16 param2))) ;;
  far_or_near_call func ;;
  ABI_RestoreStack ilen abi 0 false.

Definition ABI_CallFunctionC (abi : ABI) (func param1 : Z) : Emit :=
  ABI_AlignStack ilen abi 0 false ;;
  MOV ilen 32 (R (ABI_PARAM1 abi)) (Imm32 param1) ;;
  far_or_near_call func ;;
  ABI_RestoreStack ilen abi 0 false.

Definition ABI_CallFunctionCC (abi : ABI) (func param1 param2 : Z) : Emit :=
  ABI_AlignStack ilen abi 0 false ;;
  MOV ilen 32 (R (ABI_PARAM1 abi)) (Imm32 param1) ;;
  MOV ilen 32 (R (ABI_PARAM2 abi)) (Imm32 param2) ;;
  far_or_near_call func ;;
  ABI_RestoreStack ilen abi 0 false.

Definition ABI_CallFunctionCCC (abi : ABI) (func param1 param2 param3 : Z) : Emit :=
  ABI_AlignStack ilen abi 0 false ;;
  MOV ilen 32 (R (ABI_PARAM1 abi)) (Imm32 param1) ;;
  MOV ilen 32 (R (ABI_PARAM2 abi)) (Imm32 param2) ;;
  MOV ilen 32 (R (ABI_PARAM3 abi)) (Imm32 param3) ;;
  far_or_near_call func ;;
  ABI_RestoreStack ilen abi 0 false.

Definition ABI_CallFunctionCCP (abi : ABI) (func param1 param2 param3 : Z) : Emit :=
  ABI_AlignStack ilen abi 0 false ;;
  MOV ilen 32 (R (ABI_PARAM1 abi)) (Imm32 param1) ;;
  MOV ilen 32 (R (ABI_PARAM2 abi)) (Imm32 param2) ;;
  MOV ilen 64 (R (ABI_PARAM3 abi)) (Imm64 (u64 param3)) ;;
  far_or_near_call func ;;
  ABI_RestoreStack ilen abi 0 false.

Definition ABI_CallFunctionCCCP (abi : ABI) (func param1 param2 param3 param4 : Z) : Emit :=
  ABI_AlignStack ilen abi 0 false ;;
  MOV ilen 32 (R (ABI_PARAM1 abi)) (Imm32 param1) ;;
  MOV ilen 32 (R (ABI_PARAM2 abi)) (Imm32 param2) ;;
  MOV ilen 32 (R (ABI_PARAM3 abi)) (Imm32 param3) ;;
  MOV ilen 64 (R (ABI_PARAM4 abi)) (Imm64 (u64 param4)) ;;
  far_or_near_call func ;;
  ABI_RestoreStack ilen abi 0 false.

Definition ABI_CallFunctionPPC (abi : ABI) (func param1 param2 param3 : Z) : Emit :=
  ABI_AlignStack ilen abi 0 false ;;
  MOV ilen 64 (R (ABI_PARAM1 abi)) (Imm64 (u64 param1)) ;;
  MOV ilen 64 (R (ABI_PARAM2 abi)) (Imm64 (u64 param2)) ;;
  MOV ilen 32 (R (ABI_PARAM3 abi)) (Imm32 param3) ;;
  far_or_near_call func ;;
  ABI_RestoreStack ilen abi 0 false.

(** Pass a register as a parameter. *)
Definition ABI_CallFunctionR (abi : ABI) (func : Z) (reg1 : X64Reg) : Emit :=
  ABI_AlignStack ilen abi 0 false ;;
  (if negb (reg1 =? ABI_PARAM1 abi)
   then MOV ilen 32 (R (ABI_PARAM1 abi)) (R reg1) else skip) ;;
  far_or_near_call func ;;
  ABI_RestoreStack ilen abi 0 false.

(** Pass two registers as parameters. *)
Definition ABI_CallFunctionRR (abi : ABI) (func : Z) (reg1 reg2 : X64Reg)
    (noProlog : bool) : Emit :=
  ABI_AlignStack ilen abi 0 noProlog ;;
  (if negb (reg2 =? ABI_PARAM1 abi) then
     (if negb (reg1 =? ABI_PARAM1 abi)
      then MOV ilen 64 (R (ABI_PARAM1 abi)) (R reg1) else skip) ;;
     (if negb (reg2 =? ABI_PARAM2 abi)
      then MOV ilen 64 (R (ABI_PARAM2 abi)) (R reg2) else skip)
   else
     (if negb (reg2 =? ABI_PARAM2 abi)
      then MOV ilen 64 (R (ABI_PARAM2 abi)) (R reg2) else skip) ;;
     (if negb (reg1 =? ABI_PARAM1 abi)
      then MOV ilen 64 (R (ABI_PARAM1 abi)) (R reg1) else skip)) ;;
  far_or_near_call func ;;
  ABI_RestoreStack ilen abi 0 noProlog.

Definition ABI_CallFunctionAC (abi : ABI) (func : Z) (arg1 : OpArg) (param2 : Z) : Emit :=
  ABI_AlignStack ilen abi 0 false ;;
  (if negb (IsSimpleReg arg1 (ABI_PARAM1 abi))
   then MOV ilen 32 (R (ABI_PARAM1 abi)) arg1 else skip) ;;
  MOV ilen 32 (R (ABI_PARAM2 abi)) (Imm32 param2) ;;
  far_or_near_call func ;;
  ABI_RestoreStack ilen abi 0 false.

Definition ABI_CallFunctionA (abi : ABI) (func : Z) (arg1 : OpArg) : Emit :=
  ABI_AlignStack ilen abi 0 false ;;
  (if negb (IsSimpleReg arg1 (ABI_PARAM1 abi))
   then MOV ilen 32 (R (ABI_PARAM1 abi)) arg1 else skip) ;;
  far_or_near_call func ;;
  ABI_RestoreStack ilen abi 0 false.

(** The thirteen call shapes of the 64-bit builder, with their
    arguments, and the emitter each one stands for. *)
Inductive CallSite : Type :=
| Call
| CallC16 (param1 : Z)
| CallCC16 (param1 param2 : Z)
| CallC (param1 : Z)
| CallCC (param1 param2 : Z)
| CallCCC (param1 param2 param3 : Z)
| CallCCP (param1 param2 param3 : Z)
| CallCCCP (param1 param2 param3 param4 : Z)
| CallPPC (param1 param2 param3 : Z)
| CallR (reg1 : X64Reg)
| CallRR (reg1 reg2 : X64Reg) (noProlog : bool)
| CallAC (arg1 : OpArg) (param2 : Z)
| CallA (arg1 : OpArg).

Definition emit_call_site (abi : ABI) (func : Z) (cs : CallSite) : Emit :=
  match cs with
  | Call => ABI_CallFunction abi func
  | CallC16 p1 => ABI_CallFunctionC16 abi func p1
  | CallCC16 p1 p2 => ABI_CallFunctionCC16 abi func p1 p2
  | CallC p1 => ABI_CallFunctionC abi func p1
  | CallCC p1 p2 => ABI_CallFunctionCC abi func p1 p2
  | CallCCC p1 p2 p3 => ABI_CallFunctionCCC abi func p1 p2 p3
  | CallCCP p1 p2 p3 => ABI_CallFunctionCCP abi func p1 p2 p3
  | CallCCCP p1 p2 p3 p4 => ABI_CallFunctionCCCP abi func p1 p2 p3 p4
  | CallPPC p1 p2 p3 => ABI_CallFunctionPPC abi func p1 p2 p3
  | CallR reg1 => ABI_CallFunctionR abi func reg1
  | CallRR reg1 reg2 noProlog => ABI_CallFunctionRR abi func reg1 reg2 noProlog
  | CallAC arg1 p2 => ABI_CallFunctionAC abi func arg1 p2
  | CallA arg1 => ABI_CallFunctionA abi func arg1
  end.

End Emitter64.
End All64.

(** ** Callee-saved frame builder (lines 250-265 for the 32-bit builds,
    496-521 for Win64, 526-545 for Unix64) *)
Section CalleeSaved.

Variable ilen : Instr -> Z.

Definition ABI_PushAllCalleeSavedRegsAndAdjustStack (abi : ABI) : Emit :=
  if M_IX86 abi then
    PUSH ilen EBP ;;
    MOV ilen 32 (R EBP) (R ESP) ;;
    PUSH ilen EBX ;;
    PUSH ilen ESI ;;
    PUSH ilen EDI ;;
    SUB ilen 32 (R ESP) (Imm8 0xc)
  else if WIN32 abi then
    (* we only want to do this once *)
    PUSH ilen RBP ;;
    MOV ilen 64 (R RBP) (R RSP) ;;
    PUSH ilen RBX ;;
    PUSH ilen RSI ;;
    PUSH ilen RDI ;;
    PUSH ilen R12 ;;
    PUSH ilen R13 ;;
    PUSH ilen R14 ;;
    PUSH ilen R15 ;;
    SUB ilen 64 (R RSP) (Imm8 0x28)
  else
    PUSH ilen RBP ;;
    MOV ilen 64 (R RBP) (R RSP) ;;
    PUSH ilen RBX ;;
    PUSH ilen R12 ;;
    PUSH ilen R13 ;;
    PUSH ilen R14 ;;
    PUSH ilen R15 ;;
    SUB ilen 64 (R RSP) (Imm8 8).

Definition ABI_PopAllCalleeSavedRegsAndAdjustStack (abi : ABI) : Emit :=
  if M_IX86 abi then
    ADD ilen 32 (R ESP) (Imm8 0xc) ;;
    POP ilen EDI ;;
    POP ilen ESI ;;
    POP ilen EBX ;;
    POP ilen EBP
  else if WIN32 abi then
    ADD ilen 64 (R RSP) (Imm8 0x28) ;;
    POP ilen R15 ;;
    POP ilen R14 ;;
    POP ilen R13 ;;
    POP ilen R12 ;;
    POP ilen RDI ;;
    POP ilen RSI ;;
    POP ilen RBX ;;
    POP ilen RBP
  else
    ADD ilen 64 (R RSP) (Imm8 8) ;;
    POP ilen R15 ;;
    POP ilen R14 ;;
    POP ilen R13 ;;
    POP ilen R12 ;;
    POP ilen RBX ;;
    POP ilen RBP.

End CalleeSaved.

(** ** The stack machine on which the emitted code runs

    Sixteen general-purpose registers of [w] bytes (4 or 8, the build's
    pointer width), sixteen 128-bit vector registers and a byte-addressed
    memory.  Values are stored little-endian. *)

Record Machine : Type :=
  mkMachine { gpr : X64Reg -> Z; xmm : X64Reg -> Z; mem : Z -> Z }.

Definition set_gpr (r : X64Reg) (v : Z) (s : Machine) : Machine :=
  {| gpr := fun r' => if r' =? r then v else gpr s r'; xmm := xmm s; mem := mem s |}.

Definition set_xmm (x : X64Reg) (v : Z) (s : Machine) : Machine :=
  {| gpr := gpr s; xmm := fun x' => if x' =? x then v else xmm s x'; mem := mem s |}.

Definition set_mem (m : Z -> Z) (s : Machine) : Machine :=
  {| gpr := gpr s; xmm := xmm s; mem := m |}.

Fixpoint load_bytes (n : nat) (a : Z) (m : Z -> Z) : Z :=
  match n with
  | O => 0
  | S n' => m a mod 256 + 256 * load_bytes n' (a + 1) m
  end.

Fixpoint store_bytes (n : nat) (a v : Z) (m : Z -> Z) : Z -> Z :=
  match n with
  | O => m
  | S n' => fun x => if x =? a then v mod 256 else store_bytes n' (a + 1) (v / 256) m x
  end.

(** A register of [w] bytes wraps modulo 2^(8w); an immediate of [bits]
    bits is sign-extended to the operand width. *)
Definition wrap (w v : Z) : Z := v mod 2 ^ (8 * w).

Definition sext (bits v : Z) : Z :=
  let v' := v mod 2 ^ bits in
  if v' <? 2 ^ (bits - 1) then v' else v' - 2 ^ bits.

(** The value of a source operand of a MOV; memory sources are outside the
    model. *)
Definition mov_source (bits : Z) (src : OpArg) (s : Machine) : option Z :=
  match src with
  | R r => Some (gpr s r mod 2 ^ bits)
  | Imm ib v => if ib =? bits then Some (v mod 2 ^ bits) else None
  | _ => None
  end.

(** One instruction.  PUSH stores the value the register had before the
    stack pointer moved; POP writes its destination after the stack
    pointer moved (so POP RSP leaves the loaded value in RSP); a 32-bit MOV
    to a register clears the upper half; MOVAPD faults on an address that
    is not a multiple of 16; ADD and SUB are modelled on a register of the
    machine's width with an 8- or 32-bit immediate.  [None] is a fault or
    an instruction outside the model (calls transfer control). *)
Definition exec_instr (w : Z) (i : Instr) (s : Machine) : option Machine :=
  match i with
  | iPUSH r =>
      let v := gpr s r in
      let sp := wrap w (gpr s RSP - w) in
      Some (set_mem (store_bytes (Z.to_nat w) sp v (mem s)) (set_gpr RSP sp s))
  | iPOP r =>
      let sp := gpr s RSP in
      let v := load_bytes (Z.to_nat w) sp (mem s) in
      Some (set_gpr r v (set_gpr RSP (wrap w (sp + w)) s))
  | iPUSHw bits (Imm 32 v) =>
      if bits =? 8 * w then
        let sp := wrap w (gpr s RSP - w) in
        Some (set_mem (store_bytes (Z.to_nat w) sp (wrap w (sext 32 v)) (mem s))
                      (set_gpr RSP sp s))
      else None
  | iSUB bits (R r) (Imm ib v) =>
      if (bits =? 8 * w) && ((ib =? 8) || (ib =? 32)) then
        Some (set_gpr r (wrap w (gpr s r - sext ib v)) s)
      else None
  | iADD bits (R r) (Imm ib v) =>
      if (bits =? 8 * w) && ((ib =? 8) || (ib =? 32)) then
        Some (set_gpr r (wrap w (gpr s r + sext ib v)) s)
      else None
  | iMOV bits (R d) src =>
      if ((bits =? 32) || (bits =? 64)) && (bits <=? 8 * w) then
        match mov_source bits src s with
        | Some v => Some (set_gpr d v s)
        | None => None
        end
      else None
  | iMOVAPD_store (MDisp b d) x =>
      let a := wrap w (gpr s b + d) in
      if a mod 16 =? 0 then Some (set_mem (store_bytes 16 a (xmm s x) (mem s)) s)
      else None
  | iMOVAPD_load x (MDisp b d) =>
      let a := wrap w (gpr s b + d) in
      if a mod 16 =? 0 then Some (set_xmm x (load_bytes 16 a (mem s)) s)
      else None
  | _ => None
  end.

Fixpoint exec (w : Z) (l : list Instr) (s : Machine) : option Machine :=
  match l with
  | [] => Some s
  | i :: l' =>
      match exec_instr w i s with
      | Some s' => exec w l' s'
      | None => None
      end
  end.

(** Registers hold values of their width. *)
Definition wf_machine (w : Z) (s : Machine) : Prop :=
  (forall r, 0 <= gpr s r < 2 ^ (8 * w)) /\ (forall x, 0 <= xmm s x < 2 ^ 128).

(** ** Vocabulary of the statements *)

(** What a method writes, started on an empty buffer at address [c]. *)
Definition emits (f : Emit) (c : Z) : list Instr :=
  emitted (f {| code := c; emitted := [] |}).

(** The write address after a list of instructions. *)
Definition advance (ilen : Instr -> Z) (c : Z) (l : list Instr) : Z :=
  fold_left (fun c i => u64 (c + ilen i)) l c.

Definition regSize (abi : ABI) : Z := if M_X64 abi then 8 else 4.
Definition shadow_space (abi : ABI) : Z := if WIN32 abi && M_X64 abi then 0x20 else 0.

(** The register numbers 0..15 in ascending order, and the registers a
    mask selects: bits 0-15 the general-purpose ones, bits 16-31 the vector
    ones. *)
Definition reg_numbers : list Z := map Z.of_nat (seq 0 16).

Definition gp_selected (mask : Z) : list X64Reg :=
  filter (mask_has mask) reg_numbers.

Definition vec_selected (mask : Z) : list X64Reg :=
  filter (fun x => mask_has mask (16 + x)) reg_numbers.

(** Stores and loads of vector registers at ascending 16-byte offsets. *)
Fixpoint vec_stores (offset : Z) (l : list X64Reg) : list Instr :=
  match l with
  | [] => []
  | x :: l' => iMOVAPD_store (MDisp RSP offset) x :: vec_stores (offset + 16) l'
  end.

Fixpoint vec_loads (offset : Z) (l : list X64Reg) : list Instr :=
  match l with
  | [] => []
  | x :: l' => iMOVAPD_load x (MDisp RSP offset) :: vec_loads (offset + 16) l'
  end.

(** The byte total of the single stack adjustment of save and restore. *)
Definition adjust_size (abi : ABI) (mask : Z) (noProlog : bool) : Z :=
  Z.land ((if noProlog then - regSize abi else 0)
          - Z.of_nat (length (gp_selected mask)) * regSize abi) 0xf
  + 16 * Z.of_nat (length (vec_selected mask))
  + shadow_space abi.

Definition adjust_imm (size : Z) : OpArg :=
  if 0x80 <=? size then Imm 32 size else Imm 8 size.

(** A signed 64-bit reading of an unsigned one, and the displacements a
    near call can encode. *)
Definition s64 (x : Z) : Z := if x <? 2 ^ 63 then x else x - 2 ^ 64.

Definition fits_rel32 (func c : Z) : bool :=
  let d := s64 (u64 (func - (c + 5))) in (- 2 ^ 31 <=? d) && (d <? 2 ^ 31).

Definition call_sequence (func c : Z) : list Instr :=
  if fits_rel32 func c then [iCALL func]
  else [iMOV 64 (R RAX) (Imm 64 (u64 func)); iCALLptr (R RAX)].

Definition is_call (i : Instr) : bool :=
  match i with iCALL _ | iCALLptr _ => true | _ => false end.

Definition is_stack_adjust (i : Instr) : bool :=
  match i with iADD _ _ _ | iSUB _ _ _ => true | _ => false end.

(** [append e l]: the emitter after [l] has been written; [writes f e l]:
    run on [e], the method [f] writes exactly [l]. *)
Definition append (ilen : Instr -> Z) (e : XEmitter) (l : list Instr) : XEmitter :=
  {| code := advance ilen (code e) l; emitted := emitted e ++ l |}.

Definition writes (ilen : Instr -> Z) (f : Emit) (e : XEmitter) (l : list Instr) : Prop :=
  f e = append ilen e l.

(** Instructions generated along a list, with a running counter. *)
Fixpoint gen (g : Z -> Z -> Instr) (d k : Z) (l : list Z) : list Instr :=
  match l with [] => [] | x :: l' => g x k :: gen g d (k + d) l' end.

(** The single stack adjustment of save and of restore, as a list of zero
    or one instruction, and the whole sequences. *)
Definition adjust_sub (abi : ABI) (mask : Z) (noProlog : bool) : list Instr :=
  let size := adjust_size abi mask noProlog in
  if size =? 0 then [] else [iSUB (regSize abi * 8) (R RSP) (adjust_imm size)].

Definition adjust_add (abi : ABI) (mask : Z) (noProlog : bool) : list Instr :=
  let size := adjust_size abi mask noProlog in
  if size =? 0 then [] else [iADD (regSize abi * 8) (R RSP) (adjust_imm size)].

Definition push_code (abi : ABI) (mask : Z) (noProlog : bool) : list Instr :=
  map iPUSH (gp_selected mask) ++ adjust_sub abi mask noProlog
  ++ vec_stores (shadow_space abi) (vec_selected mask).

Definition pop_code (abi : ABI) (mask : Z) (noProlog : bool) : list Instr :=
  vec_loads (shadow_space abi) (vec_selected mask) ++ adjust_add abi mask noProlog
  ++ map iPOP (rev (gp_selected mask)).

(** The padding instruction of [ABI_AlignStack] and the release
    instruction of [ABI_RestoreStack]. *)
Definition ptr_bits (abi : ABI) : Z := if M_X64 abi then 64 else 32.

Definition fill_size (abi : ABI) (frameSize : Z) (noProlog : bool) : Z :=
  u32 (ABI_GetAlignedFrameSize abi frameSize noProlog - frameSize).

Definition align_code (abi : ABI) (frameSize : Z) (noProlog : bool) : list Instr :=
  let fillSize := fill_size abi frameSize noProlog in
  if fillSize =? 0 then [] else [iSUB (ptr_bits abi) (R RSP) (Imm8 fillSize)].

Definition restore_code (abi : ABI) (frameSize : Z) (noProlog : bool) : list Instr :=
  let alignedSize := ABI_GetAlignedFrameSize abi frameSize noProlog in
  if alignedSize =? 0 then [] else [iADD (ptr_bits abi) (R RSP) (Imm8 alignedSize)].

(** The argument moves of each 64-bit call shape. *)
Definition move_unless (skip_it : bool) (bits : Z) (dst : X64Reg) (src : OpArg) : list Instr :=
  if skip_it then [] else [iMOV bits (R dst) src].

Definition arg_moves (abi : ABI) (cs : All64.CallSite) : list Instr :=
  let P1 := ABI_PARAM1 abi in
  let P2 := ABI_PARAM2 abi in
  let P3 := ABI_PARAM3 abi in
  let P4 := ABI_PARAM4 abi in
  match cs with
  | All64.Call => []
  | All64.CallC16 p1 => [iMOV 32 (R P1) (Imm32 (u32 (u16 p1)))]
  | All64.CallCC16 p1 p2 =>
      [iMOV 32 (R P1) (Imm32 p1); iMOV 32 (R P2) (Imm32 (u32 (u16 p2)))]
  | All64.CallC p1 => [iMOV 32 (R P1) (Imm32 p1)]
  | All64.CallCC p1 p2 => [iMOV 32 (R P1) (Imm32 p1); iMOV 32 (R P2) (Imm32 p2)]
  | All64.CallCCC p1 p2 p3 =>
      [iMOV 32 (R P1) (Imm32 p1); iMOV 32 (R P2) (Imm32 p2); iMOV 32 (R P3) (Imm32 p3)]
  | All64.CallCCP p1 p2 p3 =>
      [iMOV 32 (R P1) (Imm32 p1); iMOV 32 (R P2) (Imm32 p2);
       iMOV 64 (R P3) (Imm64 (u64 p3))]
  | All64.CallCCCP p1 p2 p3 p4 =>
      [iMOV 32 (R P1) (Imm32 p1); iMOV 32 (R P2) (Imm32 p2); iMOV 32 (R P3) (Imm32 p3);
       iMOV 64 (R P4) (Imm64 (u64 p4))]
  | All64.CallPPC p1 p2 p3 =>
      [iMOV 64 (R P1) (Imm64 (u64 p1)); iMOV 64 (R P2) (Imm64 (u64 p2));
       iMOV 32 (R P3) (Imm32 p3)]
  | All64.CallR reg1 => move_unless (reg1 =? P1) 32 P1 (R reg1)
  | All64.CallRR reg1 reg2 _ =>
      if reg2 =? P1
      then move_unless (reg2 =? P2) 64 P2 (R reg2) ++ move_unless (reg1 =? P1) 64 P1 (R reg1)
      else move_unless (reg1 =? P1) 64 P1 (R reg1) ++ move_unless (reg2 =? P2) 64 P2 (R reg2)
  | All64.CallAC arg1 p2 =>
      move_unless (IsSimpleReg arg1 P1) 32 P1 arg1 ++ [iMOV 32 (R P2) (Imm32 p2)]
  | All64.CallA arg1 => move_unless (IsSimpleReg arg1 P1) 32 P1 arg1
  end.

Definition site_noProlog (cs : All64.CallSite) : bool :=
  match cs with All64.CallRR _ _ noProlog => noProlog | _ => false end.

(** Everything a 64-bit call emitter writes before its call sequence. *)
Definition call_prolog (abi : ABI) (cs : All64.CallSite) : list Instr :=
  align_code abi 0 (site_noProlog cs) ++ arg_moves abi cs.

(** The 32-bit call shapes: the frame size each emitter passes to
    [ABI_AlignStack] and [ABI_RestoreStack], its pushes, and the bytes a
    push takes from the stack. *)
Definition frame_bytes32 (cs : All32.CallSite) : Z :=
  match cs with
  | All32.Call => 0
  | All32.CallC16 _ => 1 * 2
  | All32.CallCC16 _ _ => 1 * 2 + 1 * 4
  | All32.CallC _ => 1 * 4
  | All32.CallCC _ _ => 2 * 4
  | All32.CallCCC _ _ _ => 3 * 4
  | All32.CallCCP _ _ _ => 3 * 4
  | All32.CallCCCP _ _ _ _ => 4 * 4
  | All32.CallPPC _ _ _ => 3 * 4
  | All32.CallR _ => 1 * 4
  | All32.CallRR _ _ _ => 2 * 4
  | All32.CallAC _ _ => 2 * 4
  | All32.CallA _ => 1 * 4
  end.

Definition site_noProlog32 (cs : All32.CallSite) : bool :=
  match cs with All32.CallRR _ _ noProlog => noProlog | _ => false end.

Definition arg_pushes32 (cs : All32.CallSite) : list Instr :=
  match cs with
  | All32.Call => []
  | All32.CallC16 p1 => [iPUSHw 16 (Imm16 p1)]
  | All32.CallCC16 p1 p2 => [iPUSHw 16 (Imm16 p2); iPUSHw 32 (Imm32 p1)]
  | All32.CallC p1 => [iPUSHw 32 (Imm32 p1)]
  | All32.CallCC p1 p2 => [iPUSHw 32 (Imm32 p2); iPUSHw 32 (Imm32 p1)]
  | All32.CallCCC p1 p2 p3 =>
      [iPUSHw 32 (Imm32 p3); iPUSHw 32 (Imm32 p2); iPUSHw 32 (Imm32 p1)]
  | All32.CallCCP p1 p2 p3 =>
      [iPUSHw 32 (Imm32 (u32 p3)); iPUSHw 32 (Imm32 p2); iPUSHw 32 (Imm32 p1)]
  | All32.CallCCCP p1 p2 p3 p4 =>
      [iPUSHw 32 (Imm32 (u32 p4)); iPUSHw 32 (Imm32 p3); iPUSHw 32 (Imm32 p2);
       iPUSHw 32 (Imm32 p1)]
  | All32.CallPPC p1 p2 p3 =>
      [iPUSHw 32 (Imm32 p3); iPUSHw 32 (Imm32 (u32 p2)); iPUSHw 32 (Imm32 (u32 p1))]
  | All32.CallR reg1 => [iPUSHw 32 (R reg1)]
  | All32.CallRR reg1 reg2 _ => [iPUSHw 32 (R reg2); iPUSHw 32 (R reg1)]
  | All32.CallAC arg1 p2 => [iPUSHw 32 (Imm32 p2); iPUSHw 32 arg1]
  | All32.CallA arg1 => [iPUSHw 32 arg1]
  end.

Definition pushed_bytes (i : Instr) : Z :=
  match i with iPUSHw bits _ => bits / 8 | _ => 0 end.

(** The arguments of the 32-bit call shapes that pass immediates only, in
    declaration order. *)
Definition imm_args32 (cs : All32.CallSite) : option (list Z) :=
  match cs with
  | All32.Call => Some []
  | All32.CallC p1 => Some [p1]
  | All32.CallCC p1 p2 => Some [p1; p2]
  | All32.CallCCC p1 p2 p3 => Some [p1; p2; p3]
  | All32.CallCCP p1 p2 p3 => Some [p1; p2; p3]
  | All32.CallCCCP p1 p2 p3 p4 => Some [p1; p2; p3; p4]
  | All32.CallPPC p1 p2 p3 => Some [p1; p2; p3]
  | _ => None
  end.

(** The 64-bit call shapes that pass immediates only: each argument
    register with the value the callee must find in it. *)
Definition imm_args64 (abi : ABI) (cs : All64.CallSite) : option (list (X64Reg * Z)) :=
  let P1 := ABI_PARAM1 abi in
  let P2 := ABI_PARAM2 abi in
  let P3 := ABI_PARAM3 abi in
  let P4 := ABI_PARAM4 abi in
  match cs with
  | All64.Call => Some []
  | All64.CallC16 p1 => Some [(P1, u16 p1)]
  | All64.CallCC16 p1 p2 => Some [(P1, u32 p1); (P2, u16 p2)]
  | All64.CallC p1 => Some [(P1, u32 p1)]
  | All64.CallCC p1 p2 => Some [(P1, u32 p1); (P2, u32 p2)]
  | All64.CallCCC p1 p2 p3 => Some [(P1, u32 p1); (P2, u32 p2); (P3, u32 p3)]
  | All64.CallCCP p1 p2 p3 => Some [(P1, u32 p1); (P2, u32 p2); (P3, u64 p3)]
  | All64.CallCCCP p1 p2 p3 p4 =>
      Some [(P1, u32 p1); (P2, u32 p2); (P3, u32 p3); (P4, u64 p4)]
  | All64.CallPPC p1 p2 p3 => Some [(P1, u64 p1); (P2, u64 p2); (P3, u32 p3)]
  | _ => None
  end.

(** The callee-saved frame: the registers pushed after the frame pointer,
    the fixed reservation that follows them, and the two sequences. *)
Definition callee_saved (abi : ABI) : list X64Reg :=
  if M_IX86 abi then [EBX; ESI; EDI]
  else if WIN32 abi then [RBX; RSI; RDI; R12; R13; R14; R15]
  else [RBX; R12; R13; R14; R15].

Definition frame_reserve (abi : ABI) : Z :=
  if M_IX86 abi then 0xc else if WIN32 abi then 0x28 else 8.

Definition frame_push_code (abi : ABI) : list Instr :=
  [iPUSH RBP; iMOV (ptr_bits abi) (R RBP) (R RSP)]
  ++ map iPUSH (callee_saved abi)
  ++ [iSUB (ptr_bits abi) (R RSP) (Imm 8 (frame_reserve abi))].

Definition frame_pop_code (abi : ABI) : list Instr :=
  [iADD (ptr_bits abi) (R RSP) (Imm 8 (frame_reserve abi))]
  ++ map iPOP (rev (callee_saved abi))
  ++ [iPOP RBP].

(** * Properties *)

(** ** Arithmetic of the masks [& -4] and [& -16] on 32-bit unsigned values *)

Lemma u32_range (x : Z) : 0 <= u32 x < 2 ^ 32.
Proof. unfold u32. apply Z.mod_pos_bound. lia. Qed.

Lemma u32_small (x : Z) : 0 <= x < 2 ^ 32 -> u32 x = x.
Proof. intros H. unfold u32. apply Z.mod_small. exact H. Qed.

Lemma land_u32_neg_pow2 (k x : Z) :
  0 <= k <= 32 -> 0 <= x < 2 ^ 32 ->
  Z.land x (u32 (- 2 ^ k)) = 2 ^ k * (x / 2 ^ k).
Proof.
  intros Hk Hx.
  assert (Hm : u32 (- 2 ^ k) = Z.shiftl (Z.ones (32 - k)) k).
  { unfold u32. rewrite Z.shiftl_mul_pow2, Z.ones_equiv by lia.
    assert (Hp : 2 ^ 32 = 2 ^ (32 - k) * 2 ^ k).
    { rewrite <- Z.pow_add_r by lia. f_equal. lia. }
    assert (0 < 2 ^ k) by (apply Z.pow_pos_nonneg; lia).
    assert (0 < 2 ^ (32 - k)) by (apply Z.pow_pos_nonneg; lia).
    symmetry. apply Z.mod_unique with (q := -1); nia. }
  rewrite Hm.
  replace (2 ^ k * (x / 2 ^ k)) with (Z.shiftl (Z.shiftr x k) k)
    by (rewrite Z.shiftl_mul_pow2, Z.shiftr_div_pow2 by lia; ring).
  apply Z.bits_inj'. intros i Hi.
  rewrite Z.land_spec.
  destruct (Z.ltb_spec i k) as [Hlt | Hge].
  - rewrite !Z.shiftl_spec_low by lia. apply andb_false_r.
  - rewrite !Z.shiftl_spec by lia. rewrite Z.shiftr_spec by lia.
    replace (i - k + k) with i by lia.
    destruct (Z.ltb_spec i 32) as [Hlt32 | Hge32].
    + rewrite Z.ones_spec_low by lia. apply andb_true_r.
    + rewrite Z.ones_spec_high by lia. rewrite andb_false_r.
      symmetry. apply Z.bits_above_log2; [lia|].
      destruct (Z.eq_dec x 0) as [-> | Hnz]; [rewrite Z.log2_nonpos; lia|].
      apply Z.log2_lt_pow2; [lia|].
      pose proof (Z.pow_le_mono_r 2 32 i). lia.
Qed.

Lemma land_mask4 (x : Z) : 0 <= x < 2 ^ 32 -> Z.land x (u32 (-4)) = 4 * (x / 4).
Proof. intros H. exact (land_u32_neg_pow2 2 x ltac:(lia) H). Qed.

Lemma land_mask16 (x : Z) : 0 <= x < 2 ^ 32 -> Z.land x (u32 (-16)) = 16 * (x / 16).
Proof. intros H. exact (land_u32_neg_pow2 4 x ltac:(lia) H). Qed.

(** The source's arithmetic on the two 32-bit builds, with the masks
    replaced by divisions. *)
Lemma aligned_frame_size_win32 (frameSize : Z) (noProlog : bool) :
  ABI_GetAlignedFrameSize Win32 frameSize noProlog = 4 * (u32 (frameSize + 3) / 4).
Proof.
  unfold ABI_GetAlignedFrameSize. simpl M_X64. simpl WIN32. cbv iota.
  apply land_mask4, u32_range.
Qed.

Lemma aligned_frame_size_unix32 (frameSize : Z) (noProlog : bool) :
  ABI_GetAlignedFrameSize Unix32 frameSize noProlog =
  let e := if noProlog then 0xc else 0 in
  u32 (16 * (u32 (u32 (frameSize - e) + 15) / 16) + e).
Proof.
  unfold ABI_GetAlignedFrameSize. simpl M_X64. simpl WIN32. cbv iota zeta.
  rewrite land_mask16 by apply u32_range. reflexivity.
Qed.

Ltac u32_arith :=
  unfold u32 in *; change (2 ^ 32) with 4294967296 in *;
  Z.div_mod_to_equations; lia.

(** ** What the emitter methods write *)

Lemma for_up_16 {St : Type} (body : Z -> St -> St) (s : St) :
  for_up 16 0 body s = fold_left (fun s x => body x s) reg_numbers s.
Proof. reflexivity. Qed.

Lemma for_down_16 {St : Type} (body : Z -> St -> St) (s : St) :
  for_down 16 15 body s = fold_left (fun s x => body x s) (rev reg_numbers) s.
Proof. reflexivity. Qed.

Section EmitterFacts.

Variable ilen : Instr -> Z.

Lemma append_nil (e : XEmitter) : append ilen e [] = e.
Proof. unfold append. simpl. rewrite app_nil_r. destruct e; reflexivity. Qed.

Lemma advance_app (c : Z) (l1 l2 : list Instr) :
  advance ilen c (l1 ++ l2) = advance ilen (advance ilen c l1) l2.
Proof. unfold advance. apply fold_left_app. Qed.

Lemma append_append (e : XEmitter) (l1 l2 : list Instr) :
  append ilen (append ilen e l1) l2 = append ilen e (l1 ++ l2).
Proof. unfold append. simpl. rewrite advance_app, app_assoc. reflexivity. Qed.

End EmitterFacts.

(** ** The loops of the register save/restore unit *)

Lemma land_0xf (x : Z) : Z.land x 0xf = x mod 16.
Proof. change 0xf with (Z.ones 4). rewrite Z.land_ones by lia. reflexivity. Qed.

Lemma selected_length_le (p : Z -> bool) :
  (length (filter p reg_numbers) <= 16)%nat.
Proof. exact (filter_length_le p reg_numbers). Qed.

Lemma adjust_size_range (abi : ABI) (mask : Z) (noProlog : bool) :
  0 <= adjust_size abi mask noProlog <= 303.
Proof.
  unfold adjust_size. rewrite land_0xf.
  assert (Hv : (length (vec_selected mask) <= 16)%nat)
    by apply selected_length_le.
  assert (Hs : 0 <= shadow_space abi <= 32) by (destruct abi; cbv; split; congruence).
  match goal with |- context [?a mod 16] => pose proof (Z.mod_pos_bound a 16 ltac:(lia)) end.
  lia.
Qed.

Lemma adjust_imm_exact (size : Z) :
  0 <= size < 2 ^ 32 ->
  (if size >=? 0x80 then Imm32 size else Imm8 size) = adjust_imm size.
Proof.
  intros H. unfold adjust_imm, Imm32, Imm8.
  rewrite Z.geb_leb.
  destruct (Z.leb_spec 0x80 size) as [Hge | Hlt].
  - f_equal. apply u32_small. exact H.
  - f_equal. unfold u8. apply Z.mod_small. lia.
Qed.

Lemma count_loop (p : Z -> bool) (d : Z) (l : list Z) :
  forall k, fold_left (fun s x => if p x then s + d else s) l k
            = k + d * Z.of_nat (length (filter p l)).
Proof.
  induction l as [| x l IH]; intros k; simpl; [lia|].
  rewrite IH. destruct (p x); simpl length; lia.
Qed.

Section SaveRestoreFacts.

Variable ilen : Instr -> Z.

Lemma emit_loop (p : Z -> bool) (g : Z -> Z -> Instr) (d : Z) (l : list Z) :
  forall e k,
    fold_left (fun s x => (fun '(e, k) =>
                 if p x then (Write ilen (g x k) e, k + d) else (e, k)) s) l (e, k)
    = ({| code := advance ilen (code e) (gen g d k (filter p l));
          emitted := emitted e ++ gen g d k (filter p l) |},
       k + d * Z.of_nat (length (filter p l))).
Proof.
  induction l as [| x l IH]; intros e k.
  - simpl. rewrite app_nil_r. destruct e. simpl. f_equal. lia.
  - cbn [fold_left filter]. destruct (p x).
    + rewrite IH. cbn [gen length]. unfold Write. cbn [code emitted advance fold_left].
      rewrite <- app_assoc. simpl. f_equal. lia.
    + apply IH.
Qed.

Lemma gen_push (k : Z) (l : list Z) : gen (fun r _ => iPUSH r) 1 k l = map iPUSH l.
Proof. revert k. induction l as [| x l IH]; intros k; simpl; [|rewrite IH]; reflexivity. Qed.

Lemma gen_store (k : Z) (l : list Z) :
  gen (fun x off => iMOVAPD_store (MDisp RSP off) x) 16 k l = vec_stores k l.
Proof. revert k. induction l as [| x l IH]; intros k; simpl; [|rewrite IH]; reflexivity. Qed.

Lemma gen_load (k : Z) (l : list Z) :
  gen (fun x off => iMOVAPD_load x (MDisp RSP off)) 16 k l = vec_loads k l.
Proof. revert k. induction l as [| x l IH]; intros k; simpl; [|rewrite IH]; reflexivity. Qed.

Lemma pop_loop (p : Z -> bool) (l : list Z) :
  forall e,
    fold_left (fun e x => if p x then POP ilen x e else e) l e
    = {| code := advance ilen (code e) (map iPOP (filter p l));
         emitted := emitted e ++ map iPOP (filter p l) |}.
Proof.
  induction l as [| x l IH]; intros e.
  - simpl. rewrite app_nil_r. destruct e. reflexivity.
  - cbn [fold_left filter]. destruct (p x).
    + rewrite IH. unfold POP, Write. cbn [code emitted map advance fold_left].
      rewrite <- app_assoc. reflexivity.
    + apply IH.
Qed.

Lemma writes_push (abi : ABI) (mask : Z) (noProlog : bool) (e : XEmitter) :
  writes ilen (ABI_PushRegistersAndAdjustStack ilen abi mask noProlog) e
         (push_code abi mask noProlog).
Proof.
  unfold writes, append, ABI_PushRegistersAndAdjustStack, push_code.
  unfold PUSH, MOVAPD_store. rewrite !for_up_16.
  rewrite (emit_loop (mask_has mask) (fun r _ => iPUSH r) 1 reg_numbers e 0).
  rewrite gen_push. fold (gp_selected mask). cbv beta iota zeta.
  rewrite !for_up_16, count_loop. fold (vec_selected mask).
  fold (regSize abi). fold (shadow_space abi).
  rewrite Z.add_0_l, Z.mul_1_l.
  change (Z.land ((if noProlog then - regSize abi else 0)
                  - Z.of_nat (length (gp_selected mask)) * regSize abi) 0xf
          + 16 * Z.of_nat (length (vec_selected mask)) + shadow_space abi)
    with (adjust_size abi mask noProlog).
  pose proof (adjust_size_range abi mask noProlog) as Hr.
  rewrite adjust_imm_exact by lia.
  unfold adjust_sub. cbv zeta.
  set (e1 := {| code := advance ilen (code e) (map iPUSH (gp_selected mask));
                emitted := emitted e ++ map iPUSH (gp_selected mask) |}).
  set (e2 := if negb (adjust_size abi mask noProlog =? 0)
             then SUB ilen (regSize abi * 8) (R RSP)
                      (adjust_imm (adjust_size abi mask noProlog)) e1
             else e1).
  rewrite (emit_loop (fun x => mask_has mask (16 + x))
             (fun x off => iMOVAPD_store (MDisp RSP off) x) 16 reg_numbers e2
             (shadow_space abi)).
  rewrite gen_store. fold (vec_selected mask).
  subst e2 e1. destruct (adjust_size abi mask noProlog =? 0); simpl negb; cbv iota.
  - cbn [code emitted app]. rewrite !advance_app, <- !app_assoc. reflexivity.
  - unfold SUB, Write. cbn [code emitted].
    rewrite !advance_app, <- !app_assoc. reflexivity.
Qed.

Lemma writes_pop (abi : ABI) (mask : Z) (noProlog : bool) (e : XEmitter) :
  writes ilen (ABI_PopRegistersAndAdjustStack ilen abi mask noProlog) e
         (pop_code abi mask noProlog).
Proof.
  unfold writes, append, ABI_PopRegistersAndAdjustStack, pop_code.
  unfold MOVAPD_load. cbv zeta.
  replace (if WIN32 abi && M_X64 abi then 0 + 0x20 else 0) with (shadow_space abi)
    by (unfold shadow_space; destruct (WIN32 abi && M_X64 abi); reflexivity).
  rewrite for_up_16.
  rewrite (emit_loop (fun x => mask_has mask (16 + x))
             (fun x off => iMOVAPD_load x (MDisp RSP off)) 16 reg_numbers e
             (shadow_space abi)).
  rewrite gen_load. fold (vec_selected mask). cbv beta iota zeta.
  rewrite for_up_16, count_loop. fold (gp_selected mask). fold (regSize abi).
  rewrite Z.add_0_l, Z.mul_1_l.
  replace (shadow_space abi + 16 * Z.of_nat (length (vec_selected mask))
           + Z.land ((if noProlog then - regSize abi else 0)
                     - Z.of_nat (length (gp_selected mask)) * regSize abi) 0xf)
    with (adjust_size abi mask noProlog) by (unfold adjust_size; lia).
  pose proof (adjust_size_range abi mask noProlog) as Hr.
  rewrite adjust_imm_exact by lia.
  rewrite for_down_16, pop_loop. rewrite filter_rev. fold (gp_selected mask).
  unfold adjust_add. cbv zeta.
  destruct (adjust_size abi mask noProlog =? 0); simpl negb; cbv iota.
  - cbn [code emitted app]. rewrite !advance_app, <- !app_assoc. reflexivity.
  - unfold ADD, Write. cbn [code emitted].
    rewrite !advance_app, <- !app_assoc. reflexivity.
Qed.

End SaveRestoreFacts.

(** ** What the stack adjustment emitters and the call emitters write *)

Lemma u64_range (x : Z) : 0 <= u64 x < 2 ^ 64.
Proof. unfold u64. apply Z.mod_pos_bound. lia. Qed.

Lemma u64_idem (x : Z) : u64 (u64 x) = u64 x.
Proof. unfold u64. apply Z.mod_mod. lia. Qed.

Lemma distance_u64 (func c : Z) :
  u64 (u64 func - (u64 c + 5)) = u64 (func - (c + 5)).
Proof.
  unfold u64. change (2 ^ 64) with 18446744073709551616.
  Z.div_mod_to_equations. lia.
Qed.

(** The unsigned range test of the source is the signed 32-bit fit. *)
Lemma far_test_fits (func c : Z) :
  let distance := u64 (u64 func - (u64 c + 5)) in
  (distance >=? 0x0000000080000000) && (distance <? 0xFFFFFFFF80000000)
  = negb (fits_rel32 func c).
Proof.
  cbv zeta. rewrite distance_u64. unfold fits_rel32, s64.
  pose proof (u64_range (func - (c + 5))) as Hd.
  set (d := u64 (func - (c + 5))) in *.
  change (2 ^ 64) with 18446744073709551616 in *.
  change (2 ^ 63) with 9223372036854775808.
  change (2 ^ 31) with 2147483648.
  rewrite Z.geb_leb.
  destruct (Z.ltb_spec d 9223372036854775808);
    repeat match goal with
           | |- context [?a <=? ?b] => destruct (Z.leb_spec a b)
           | |- context [?a <? ?b] => destruct (Z.ltb_spec a b)
           end; simpl; try reflexivity; lia.
Qed.

Section CallFacts.

Variable ilen : Instr -> Z.

Lemma Write_append (i : Instr) (e : XEmitter) : Write ilen i e = append ilen e [i].
Proof. reflexivity. Qed.

Lemma code_append (e : XEmitter) (l : list Instr) :
  code (append ilen e l) = advance ilen (code e) l.
Proof. reflexivity. Qed.

Lemma AlignStack_append (abi : ABI) (frameSize : Z) (noProlog : bool) (e : XEmitter) :
  ABI_AlignStack ilen abi frameSize noProlog e
  = append ilen e (align_code abi frameSize noProlog).
Proof.
  unfold ABI_AlignStack, align_code, fill_size, ptr_bits, ESP. cbv zeta.
  destruct (_ =? 0); simpl negb; cbv iota.
  - symmetry. apply append_nil.
  - destruct (M_X64 abi); reflexivity.
Qed.

Lemma RestoreStack_append (abi : ABI) (frameSize : Z) (noProlog : bool) (e : XEmitter) :
  ABI_RestoreStack ilen abi frameSize noProlog e
  = append ilen e (restore_code abi frameSize noProlog).
Proof.
  unfold ABI_RestoreStack, restore_code, ptr_bits, ESP. cbv zeta.
  destruct (_ =? 0); simpl negb; cbv iota.
  - symmetry. apply append_nil.
  - destruct (M_X64 abi); reflexivity.
Qed.

Lemma far_or_near_append (func : Z) (e : XEmitter) :
  All64.far_or_near_call ilen func e = append ilen e (call_sequence func (code e)).
Proof.
  unfold All64.far_or_near_call. cbv zeta.
  rewrite (far_test_fits func (code e)). unfold call_sequence.
  destruct (fits_rel32 func (code e)); simpl negb; cbv iota.
  - reflexivity.
  - unfold seq_emit, CALLptr, MOV. rewrite !Write_append, append_append.
    unfold Imm64. rewrite u64_idem. reflexivity.
Qed.

Lemma move_unless_append (b : bool) (bits dst : Z) (src : OpArg) (e : XEmitter) :
  (if negb b then MOV ilen bits (R dst) src else skip) e
  = append ilen e (move_unless b bits dst src).
Proof.
  unfold move_unless. destruct b; simpl negb; cbv iota.
  - symmetry. apply append_nil.
  - reflexivity.
Qed.

Lemma MOV_append (bits : Z) (dst src : OpArg) (e : XEmitter) :
  MOV ilen bits dst src e = append ilen e [iMOV bits dst src].
Proof. reflexivity. Qed.

Lemma call_site_append (abi : ABI) (func : Z) (cs : All64.CallSite) (e : XEmitter) :
  All64.emit_call_site ilen abi func cs e
  = append ilen e
      (call_prolog abi cs
       ++ call_sequence func (advance ilen (code e) (call_prolog abi cs))
       ++ restore_code abi 0 (site_noProlog cs)).
Proof.
  unfold call_prolog.
  destruct cs; cbn [All64.emit_call_site arg_moves site_noProlog];
    unfold All64.ABI_CallFunction, All64.ABI_CallFunctionC16, All64.ABI_CallFunctionCC16,
      All64.ABI_CallFunctionC, All64.ABI_CallFunctionCC, All64.ABI_CallFunctionCCC,
      All64.ABI_CallFunctionCCP, All64.ABI_CallFunctionCCCP, All64.ABI_CallFunctionPPC,
      All64.ABI_CallFunctionR, All64.ABI_CallFunctionRR, All64.ABI_CallFunctionAC,
      All64.ABI_CallFunctionA, seq_emit;
    cbv zeta;
    try (destruct (reg2 =? ABI_PARAM1 abi); cbn [negb]; cbv beta iota);
    repeat (rewrite AlignStack_append || rewrite move_unless_append
            || rewrite MOV_append || rewrite append_append
            || rewrite far_or_near_append || rewrite RestoreStack_append
            || rewrite code_append);
    rewrite <- ?app_assoc, ?app_nil_r; cbn [app]; reflexivity.
Qed.

End CallFacts.

(** ** Memory: little-endian loads and stores *)

Lemma store_bytes_other (n : nat) :
  forall a v m x, x < a \/ a + Z.of_nat n <= x -> store_bytes n a v m x = m x.
Proof.
  induction n as [| n IH]; intros a v m x Hx; [reflexivity|].
  cbn [store_bytes]. destruct (Z.eqb_spec x a) as [-> | Hne]; [lia|].
  apply IH. lia.
Qed.

Lemma load_bytes_ext (n : nat) :
  forall a m m', (forall x, a <= x < a + Z.of_nat n -> m x = m' x) ->
                 load_bytes n a m = load_bytes n a m'.
Proof.
  induction n as [| n IH]; intros a m m' H; [reflexivity|].
  cbn [load_bytes]. rewrite (H a) by lia. rewrite (IH (a + 1) m m'); [reflexivity|].
  intros x Hx. apply H. lia.
Qed.

Lemma load_store_same (n : nat) :
  forall a v m, load_bytes n a (store_bytes n a v m) = v mod 2 ^ (8 * Z.of_nat n).
Proof.
  induction n as [| n IH]; intros a v m.
  - simpl. rewrite Z.mod_1_r. reflexivity.
  - cbn [load_bytes].
    replace (store_bytes (S n) a v m a) with (v mod 256)
      by (cbn [store_bytes]; rewrite Z.eqb_refl; reflexivity).
    rewrite (load_bytes_ext n (a + 1) _ (store_bytes n (a + 1) (v / 256) m)).
    + rewrite IH.
      replace (8 * Z.of_nat (S n)) with (8 + 8 * Z.of_nat n) by lia.
      rewrite Z.pow_add_r by lia. change (2 ^ 8) with 256.
      rewrite Z.rem_mul_r; [| lia | apply Z.pow_pos_nonneg; lia].
      rewrite Z.mod_mod by lia. reflexivity.
    + intros x Hx. cbn [store_bytes].
      destruct (Z.eqb_spec x a); [lia | reflexivity].
Qed.

Lemma load_store_disjoint (n k : nat) (a b v : Z) (m : Z -> Z) :
  a + Z.of_nat n <= b \/ b + Z.of_nat k <= a ->
  load_bytes n a (store_bytes k b v m) = load_bytes n a m.
Proof.
  intros H. apply load_bytes_ext. intros x Hx. apply store_bytes_other. lia.
Qed.

(** ** Running emitted code *)

Lemma exec_app (w : Z) (l1 l2 : list Instr) :
  forall s, exec w (l1 ++ l2) s
            = match exec w l1 s with Some s' => exec w l2 s' | None => None end.
Proof.
  induction l1 as [| i l1 IH]; intros s; [reflexivity|].
  cbn [app exec]. destruct (exec_instr w i s); [apply IH | reflexivity].
Qed.

Lemma wrap_small (w v : Z) : 0 <= v < 2 ^ (8 * w) -> wrap w v = v.
Proof. intros H. unfold wrap. apply Z.mod_small. exact H. Qed.

Lemma gpr_set_gpr (r r' v : Z) (s : Machine) :
  gpr (set_gpr r v s) r' = if r' =? r then v else gpr s r'.
Proof. reflexivity. Qed.

(** Pushing a list of registers and popping it in reverse order.  While
    the registers are saved, any register but the stack pointer and any
    memory outside the save area may change. *)
Lemma gp_round_trip (w : Z) (l : list Z) :
  0 < w ->
  forall s,
    (forall r, 0 <= gpr s r < 2 ^ (8 * w)) ->
    w * Z.of_nat (length l) <= gpr s RSP ->
    exists s1,
      exec w (map iPUSH l) s = Some s1 /\
      gpr s1 RSP = gpr s RSP - w * Z.of_nat (length l) /\
      (forall r, r <> RSP -> gpr s1 r = gpr s r) /\
      xmm s1 = xmm s /\
      (forall a, gpr s RSP <= a -> mem s1 a = mem s a) /\
      forall s2,
        gpr s2 RSP = gpr s1 RSP ->
        (forall a, gpr s1 RSP <= a < gpr s RSP -> mem s2 a = mem s1 a) ->
        exists s3,
          exec w (map iPOP (rev l)) s2 = Some s3 /\
          gpr s3 RSP = gpr s RSP /\
          (forall r, In r l -> gpr s3 r = gpr s r) /\
          xmm s3 = xmm s2 /\ mem s3 = mem s2.
Proof.
  intros Hw. induction l as [| r l IH]; intros s Hwf Hsp.
  - exists s. cbn [map exec length]. repeat split; try reflexivity; try lia.
    intros s2 Hsp2 _. exists s2. cbn [rev map exec].
    repeat split; try assumption; try reflexivity. intros r [].
  - cbn [length] in Hsp. rewrite Nat2Z.inj_succ in Hsp.
    pose proof (Hwf RSP) as Hrsp.
    set (sp := gpr s RSP - w).
    set (sa := set_mem (store_bytes (Z.to_nat w) sp (gpr s r) (mem s)) (set_gpr RSP sp s)).
    assert (Hstep : exec_instr w (iPUSH r) s = Some sa).
    { cbn [exec_instr]. rewrite wrap_small by (fold sp; lia). reflexivity. }
    assert (Hsa_sp : gpr sa RSP = sp) by reflexivity.
    assert (Hsa_r : forall r', r' <> RSP -> gpr sa r' = gpr s r').
    { intros r' Hne. subst sa. cbn [set_mem gpr]. rewrite gpr_set_gpr.
      destruct (Z.eqb_spec r' RSP); [contradiction | reflexivity]. }
    destruct (IH sa) as (s1 & Hex & Hsp1 & Hreg1 & Hxmm1 & Hmem1 & Hback).
    { intros r'. destruct (Z.eq_dec r' RSP) as [-> | Hne].
      - rewrite Hsa_sp. subst sp. lia.
      - rewrite Hsa_r by assumption. apply Hwf. }
    { rewrite Hsa_sp. subst sp. lia. }
    exists s1. cbn [map exec]. rewrite Hstep.
    split; [exact Hex|].
    split; [rewrite Hsp1, Hsa_sp; subst sp; cbn [length]; lia|].
    split; [intros r' Hne; rewrite Hreg1, Hsa_r by assumption; reflexivity|].
    split; [rewrite Hxmm1; reflexivity|].
    split.
    { intros a Ha. rewrite Hmem1 by (rewrite Hsa_sp; subst sp; lia).
      cbn. apply store_bytes_other. subst sp. lia. }
    intros s2 Hsp2 Hagree.
    destruct (Hback s2 Hsp2) as (s3 & Hex3 & Hsp3 & Hreg3 & Hxmm3 & Hmem3).
    { intros a Ha. apply Hagree. rewrite Hsa_sp in Ha. subst sp. lia. }
    set (v := load_bytes (Z.to_nat w) (gpr s3 RSP) (mem s3)).
    assert (Hv : v = gpr s r).
    { subst v. rewrite Hsp3, Hsa_sp, Hmem3.
      rewrite (load_bytes_ext _ sp (mem s2) (mem sa)).
      - cbn. rewrite load_store_same. rewrite Z2Nat.id by lia.
        apply Z.mod_small. apply Hwf.
      - intros x Hx. rewrite Z2Nat.id in Hx by lia.
        rewrite Hagree by (rewrite Hsp1, Hsa_sp; subst sp; lia).
        apply Hmem1. rewrite Hsa_sp. lia. }
    exists (set_gpr r v (set_gpr RSP (gpr s RSP) s3)).
    split.
    { cbn [rev]. rewrite map_app, exec_app, Hex3. cbn [map exec exec_instr].
      fold v. rewrite Hsp3, Hsa_sp. subst sp.
      replace (gpr s RSP - w + w) with (gpr s RSP) by lia.
      rewrite wrap_small by exact Hrsp. reflexivity. }
    split.
    { rewrite !gpr_set_gpr. destruct (Z.eqb_spec RSP r) as [<- | Hne].
      - exact Hv.
      - rewrite Z.eqb_refl. reflexivity. }
    split.
    { intros r' Hin. rewrite !gpr_set_gpr.
      destruct (Z.eqb_spec r' r) as [-> | Hne]; [exact Hv|].
      destruct (Z.eqb_spec r' RSP) as [-> | Hne']; [reflexivity|].
      destruct Hin as [-> | Hin]; [contradiction|].
      rewrite Hreg3 by exact Hin. apply Hsa_r. exact Hne'. }
    split; [exact Hxmm3 | exact Hmem3].
Qed.

(** Storing a list of vector registers at ascending 16-byte offsets from
    the stack pointer and loading them back from the same offsets. *)
Lemma vec_round_trip (w : Z) (l : list Z) :
  forall off s,
    0 <= gpr s RSP + off ->
    gpr s RSP + off + 16 * Z.of_nat (length l) <= 2 ^ (8 * w) ->
    l = [] \/ (gpr s RSP + off) mod 16 = 0 ->
    (forall x, 0 <= xmm s x < 2 ^ 128) ->
    exists s1,
      exec w (vec_stores off l) s = Some s1 /\
      gpr s1 = gpr s /\ xmm s1 = xmm s /\
      (forall a, a < gpr s RSP + off \/ gpr s RSP + off + 16 * Z.of_nat (length l) <= a ->
                 mem s1 a = mem s a) /\
      forall s2,
        gpr s2 RSP = gpr s RSP ->
        (forall a, gpr s RSP + off <= a < gpr s RSP + off + 16 * Z.of_nat (length l) ->
                   mem s2 a = mem s1 a) ->
        exists s3,
          exec w (vec_loads off l) s2 = Some s3 /\
          gpr s3 = gpr s2 /\ mem s3 = mem s2 /\
          (forall x, In x l -> xmm s3 x = xmm s x) /\
          (forall x, ~ In x l -> xmm s3 x = xmm s2 x).
Proof.
  induction l as [| x l IH]; intros off s Hlo Hhi Hal Hwf.
  - exists s. cbn [vec_stores exec]. repeat split; try reflexivity.
    intros s2 _ _. exists s2. cbn [vec_loads exec]. repeat split. intros y [].
  - destruct Hal as [Hnil | Hal]; [discriminate Hnil|].
    cbn [length] in *. rewrite Nat2Z.inj_succ in *.
    set (a0 := gpr s RSP + off) in *.
    set (sa := set_mem (store_bytes 16 a0 (xmm s x) (mem s)) s).
    assert (Hstep : exec_instr w (iMOVAPD_store (MDisp RSP off) x) s = Some sa).
    { cbn [exec_instr]. fold a0. rewrite wrap_small by lia. rewrite Hal. reflexivity. }
    destruct (IH (off + 16) sa) as (s1 & Hex & Hg1 & Hx1 & Hm1 & Hback).
    { change (gpr sa RSP) with (gpr s RSP). lia. }
    { change (gpr sa RSP) with (gpr s RSP). lia. }
    { right. change (gpr sa RSP) with (gpr s RSP).
      replace (gpr s RSP + (off + 16)) with (a0 + 16) by (subst a0; lia).
      rewrite <- Z.add_mod_idemp_l, Hal by lia. reflexivity. }
    { exact Hwf. }
    change (gpr sa RSP) with (gpr s RSP) in *.
    exists s1. cbn [vec_stores exec]. rewrite Hstep.
    split; [exact Hex|]. split; [exact Hg1|]. split; [exact Hx1|].
    split.
    { intros a Ha. rewrite Hm1 by lia. subst sa. cbn [set_mem mem].
      apply store_bytes_other. change (Z.of_nat 16) with 16. lia. }
    intros s2 Hsp2 Hagree.
    set (v := load_bytes 16 a0 (mem s2)).
    assert (Hv : v = xmm s x).
    { subst v. rewrite (load_bytes_ext 16 a0 (mem s2) (mem sa)).
      - subst sa. cbn [set_mem mem]. rewrite load_store_same.
        apply Z.mod_small. apply Hwf.
      - intros y Hy. change (Z.of_nat 16) with 16 in Hy.
        rewrite Hagree by lia. apply Hm1. lia. }
    destruct (Hback (set_xmm x v s2)) as (s3 & Hex3 & Hg3 & Hm3 & Hx3 & Hy3).
    { exact Hsp2. }
    { intros a Ha. cbn [set_xmm mem]. apply Hagree. lia. }
    exists s3.
    split.
    { cbn [vec_loads exec exec_instr]. rewrite Hsp2. fold a0.
      rewrite wrap_small by lia. rewrite Hal. fold v. exact Hex3. }
    split; [exact Hg3|]. split; [exact Hm3|].
    split.
    + intros y Hin. destruct (in_dec Z.eq_dec y l) as [Hl | Hnl].
      * apply Hx3. exact Hl.
      * destruct Hin as [<- | Hin]; [|contradiction].
        rewrite Hy3 by exact Hnl. cbn [set_xmm xmm]. rewrite Z.eqb_refl. exact Hv.
    + intros y Hnin. rewrite Hy3 by (intros Hl; apply Hnin; right; exact Hl).
      cbn [set_xmm xmm]. destruct (Z.eqb_spec y x) as [-> | Hne]; [|reflexivity].
      exfalso. apply Hnin. left. reflexivity.
Qed.

(** ** The stack adjustment between the pushes and the vector stores *)

Lemma regSize_cases (abi : ABI) : regSize abi = 4 \/ regSize abi = 8.
Proof. destruct abi; cbv; auto. Qed.

Lemma shadow_space_nonneg (abi : ABI) : 0 <= shadow_space abi.
Proof. destruct abi; cbv; congruence. Qed.

Lemma adjust_size_covers (abi : ABI) (mask : Z) (noProlog : bool) :
  shadow_space abi + 16 * Z.of_nat (length (vec_selected mask))
  <= adjust_size abi mask noProlog.
Proof.
  unfold adjust_size. rewrite land_0xf.
  match goal with |- context [?a mod 16] => pose proof (Z.mod_pos_bound a 16 ltac:(lia)) end.
  lia.
Qed.

Lemma adjust_size_aligns (abi : ABI) (mask : Z) (noProlog : bool) (sp : Z) :
  (sp + (if noProlog then regSize abi else 0)) mod 16 = 0 ->
  (sp - regSize abi * Z.of_nat (length (gp_selected mask))
   - adjust_size abi mask noProlog + shadow_space abi) mod 16 = 0.
Proof.
  unfold adjust_size. rewrite land_0xf.
  generalize (Z.of_nat (length (gp_selected mask))) as n.
  generalize (Z.of_nat (length (vec_selected mask))) as k.
  generalize (shadow_space abi) as sh.
  intros sh k n.
  destruct (regSize_cases abi) as [-> | ->]; destruct noProlog;
    intros H; Z.div_mod_to_equations; lia.
Qed.

Lemma sext_adjust_imm (size : Z) :
  0 <= size <= 303 ->
  exists ib, adjust_imm size = Imm ib size
             /\ (ib =? 8) || (ib =? 32) = true /\ sext ib size = size.
Proof.
  intros H. unfold adjust_imm.
  destruct (Z.leb_spec 0x80 size) as [Hge | Hlt].
  - exists 32. repeat split. unfold sext. cbv zeta.
    change (2 ^ 32) with 4294967296. change (2 ^ (32 - 1)) with 2147483648.
    rewrite Z.mod_small by lia.
    destruct (Z.ltb_spec size 2147483648); [reflexivity | lia].
  - exists 8. repeat split. unfold sext. cbv zeta.
    change (2 ^ 8) with 256. change (2 ^ (8 - 1)) with 128.
    rewrite Z.mod_small by lia.
    destruct (Z.ltb_spec size 128); [reflexivity | lia].
Qed.

Lemma exec_adjust_sub (abi : ABI) (mask : Z) (noProlog : bool) (s : Machine) :
  adjust_size abi mask noProlog <= gpr s RSP < 2 ^ (8 * regSize abi) ->
  exists s1,
    exec (regSize abi) (adjust_sub abi mask noProlog) s = Some s1 /\
    gpr s1 RSP = gpr s RSP - adjust_size abi mask noProlog /\
    (forall r, r <> RSP -> gpr s1 r = gpr s r) /\
    xmm s1 = xmm s /\ mem s1 = mem s.
Proof.
  intros Hsp. unfold adjust_sub. cbv zeta.
  pose proof (adjust_size_range abi mask noProlog) as Hr.
  destruct (Z.eqb_spec (adjust_size abi mask noProlog) 0) as [Hz | Hnz].
  - exists s. cbn [exec]. repeat split; lia.
  - destruct (sext_adjust_imm _ Hr) as (ib & -> & Hib & Hsx).
    exists (set_gpr RSP (gpr s RSP - adjust_size abi mask noProlog) s).
    cbn [exec exec_instr].
    rewrite (Z.mul_comm (regSize abi) 8), Z.eqb_refl, Hib, Hsx. cbn [andb].
    rewrite wrap_small by lia.
    split; [reflexivity|].
    split; [rewrite gpr_set_gpr, Z.eqb_refl; reflexivity|].
    split; [|split; reflexivity].
    intros r Hne. rewrite gpr_set_gpr.
    destruct (Z.eqb_spec r RSP); [contradiction | reflexivity].
Qed.

Lemma exec_adjust_add (abi : ABI) (mask : Z) (noProlog : bool) (s : Machine) :
  0 <= gpr s RSP ->
  gpr s RSP + adjust_size abi mask noProlog < 2 ^ (8 * regSize abi) ->
  exists s1,
    exec (regSize abi) (adjust_add abi mask noProlog) s = Some s1 /\
    gpr s1 RSP = gpr s RSP + adjust_size abi mask noProlog /\
    (forall r, r <> RSP -> gpr s1 r = gpr s r) /\
    xmm s1 = xmm s /\ mem s1 = mem s.
Proof.
  intros Hlo Hhi. unfold adjust_add. cbv zeta.
  pose proof (adjust_size_range abi mask noProlog) as Hr.
  destruct (Z.eqb_spec (adjust_size abi mask noProlog) 0) as [Hz | Hnz].
  - exists s. cbn [exec]. repeat split; lia.
  - destruct (sext_adjust_imm _ Hr) as (ib & -> & Hib & Hsx).
    exists (set_gpr RSP (gpr s RSP + adjust_size abi mask noProlog) s).
    cbn [exec exec_instr].
    rewrite (Z.mul_comm (regSize abi) 8), Z.eqb_refl, Hib, Hsx. cbn [andb].
    rewrite wrap_small by lia.
    split; [reflexivity|].
    split; [rewrite gpr_set_gpr, Z.eqb_refl; reflexivity|].
    split; [|split; reflexivity].
    intros r Hne. rewrite gpr_set_gpr.
    destruct (Z.eqb_spec r RSP); [contradiction | reflexivity].
Qed.

(** ** Save followed by restore, on the machine *)

Lemma save_restore_machine (abi : ABI) (mask : Z) (noProlog : bool) (s : Machine) :
  let w := regSize abi in
  let total := w * Z.of_nat (length (gp_selected mask)) + adjust_size abi mask noProlog in
  wf_machine w s ->
  total <= gpr s RSP ->
  vec_selected mask = [] \/ (gpr s RSP + (if noProlog then w else 0)) mod 16 = 0 ->
  exists s1,
    exec w (push_code abi mask noProlog) s = Some s1 /\
    gpr s1 RSP = gpr s RSP - total /\
    forall s2,
      gpr s2 RSP = gpr s1 RSP ->
      (forall a, gpr s1 RSP <= a < gpr s RSP -> mem s2 a = mem s1 a) ->
      exists s3,
        exec w (pop_code abi mask noProlog) s2 = Some s3 /\
        gpr s3 RSP = gpr s RSP /\
        (forall r, In r (gp_selected mask) -> gpr s3 r = gpr s r) /\
        (forall x, In x (vec_selected mask) -> xmm s3 x = xmm s x).
Proof.
  intros w total [Hwg Hwx] Htot Hal. subst total.
  pose proof (adjust_size_range abi mask noProlog) as Hr.
  pose proof (adjust_size_covers abi mask noProlog) as Hc.
  pose proof (shadow_space_nonneg abi) as Hsh.
  assert (Hal' : vec_selected mask = []
                 \/ (gpr s RSP - w * Z.of_nat (length (gp_selected mask))
                     - adjust_size abi mask noProlog + shadow_space abi) mod 16 = 0).
  { destruct Hal as [Hnil | Hal]; [left; exact Hnil | right].
    apply adjust_size_aligns. exact Hal. }
  pose proof (Hwg RSP) as Hsp.
  assert (Hw : 0 < w) by (subst w; destruct (regSize_cases abi); lia).
  set (n := Z.of_nat (length (gp_selected mask))) in *.
  set (size := adjust_size abi mask noProlog) in *.
  assert (Hn : 0 <= w * n) by (subst n; nia).
  destruct (gp_round_trip w (gp_selected mask) Hw s Hwg ltac:(fold n; lia))
    as (sa & Hexa & Hspa & Hrega & Hxa & Hma & Hpops).
  fold n in Hspa.
  destruct (exec_adjust_sub abi mask noProlog sa ltac:(fold size w; lia))
    as (sb & Hexb & Hspb & Hregb & Hxb & Hmb).
  fold size w in Hexb, Hspb.
  destruct (vec_round_trip w (vec_selected mask) (shadow_space abi) sb)
    as (s1 & Hex1 & Hg1 & Hx1 & Hm1 & Hloads).
  { lia. }
  { lia. }
  { rewrite Hspb, Hspa. exact Hal'. }
  { intros x. rewrite Hxb, Hxa. apply Hwx. }
  assert (Hsp1 : gpr s1 RSP = gpr s RSP - (w * n + size)) by (rewrite Hg1; lia).
  exists s1. split.
  { unfold push_code. rewrite exec_app, Hexa. cbv beta iota.
    rewrite exec_app, Hexb. exact Hex1. }
  split; [exact Hsp1|].
  intros s2 Hsp2 Hagree.
  destruct (Hloads s2) as (sc & Hexc & Hgc & Hmc & Hxc & _).
  { rewrite Hsp2, Hg1. reflexivity. }
  { intros a Ha. apply Hagree. lia. }
  destruct (exec_adjust_add abi mask noProlog sc) as (sd & Hexd & Hspd & Hregd & Hxd & Hmd).
  { rewrite Hgc, Hsp2. lia. }
  { rewrite Hgc, Hsp2. fold size w. lia. }
  fold size w in Hexd, Hspd.
  destruct (Hpops sd) as (s3 & Hex3 & Hsp3 & Hreg3 & Hx3 & _).
  { rewrite Hspd, Hgc, Hsp2. lia. }
  { intros a Ha. rewrite Hmd, Hmc. rewrite Hagree by lia.
    rewrite Hm1 by lia. rewrite Hmb. reflexivity. }
  exists s3. split.
  { unfold pop_code. rewrite exec_app, Hexc. cbv beta iota.
    rewrite exec_app, Hexd. exact Hex3. }
  split; [exact Hsp3|]. split; [exact Hreg3|].
  intros x Hin. rewrite Hx3, Hxd, (Hxc x Hin), Hxb, Hxa. reflexivity.
Qed.

(** * The frame alignment calculator *)

(** C1, as the code has it: on Win64 [ABI_GetAlignedFrameSize] ignores
    [frameSize] and returns 0x28 = 40 bytes when [noProlog] is true (the 32
    bytes of shadow space and the 8 bytes that realign the stack after the
    return address) and 0 when [noProlog] is false. *)
Theorem win64_frame_size (frameSize : Z) :
  ABI_GetAlignedFrameSize Win64 frameSize true = 0x28 /\
  ABI_GetAlignedFrameSize Win64 frameSize false = 0.
Proof. split; reflexivity. Qed.

(** C1, as stated, fails: with [frameSize = 0] and [noProlog = true] the
    Win64 result is not 32. *)
Lemma win64_frame_size_not_32 : ABI_GetAlignedFrameSize Win64 0 true <> 32.
Proof. cbv. discriminate. Qed.

(** C2, as the code has it: the subtract, round up to a multiple of 16 and
    add back computation (modulo 2^32, with 0xc consumed when [noProlog])
    is the one of the 32-bit non-Windows build, where
    [ABI_GetAlignedFrameSize(0, true)] is 12; on Unix64 the function
    returns 0x28 when [noProlog] is true and 0 otherwise, whatever
    [frameSize] is. *)
Theorem unix_frame_size (frameSize : Z) (noProlog : bool) :
  ABI_GetAlignedFrameSize Unix32 frameSize noProlog
  = spec_aligned_frame_size (if noProlog then 0xc else 0) frameSize /\
  ABI_GetAlignedFrameSize Unix32 0 true = 12 /\
  ABI_GetAlignedFrameSize Unix64 frameSize noProlog = (if noProlog then 0x28 else 0).
Proof.
  split; [| split; reflexivity].
  rewrite aligned_frame_size_unix32. cbv zeta.
  unfold spec_aligned_frame_size, round_up.
  set (e := if noProlog then 0xc else 0).
  pose proof (u32_range (frameSize - e)) as Hg.
  set (g := u32 (frameSize - e)) in *.
  change (16 - 1) with 15.
  clearbody g. clearbody e. u32_arith.
Qed.

(** C2, as stated, fails: on Unix64 [ABI_GetAlignedFrameSize(0, true)] is
    not 16. *)
Lemma unix64_frame_size_not_16 : ABI_GetAlignedFrameSize Unix64 0 true <> 16.
Proof. cbv. discriminate. Qed.

(** C8: for every ABI, every [frameSize] and every [noProlog],
    [ABI_GetAlignedFrameSize] applied to its own result with the same
    [noProlog] returns that result. *)
Theorem aligned_frame_size_idempotent (abi : ABI) (frameSize : Z) (noProlog : bool) :
  ABI_GetAlignedFrameSize abi (ABI_GetAlignedFrameSize abi frameSize noProlog) noProlog
  = ABI_GetAlignedFrameSize abi frameSize noProlog.
Proof.
  destruct abi.
  - rewrite !aligned_frame_size_win32.
    pose proof (u32_range (frameSize + 3)) as Hy.
    set (y := u32 (frameSize + 3)) in *.
    rewrite (u32_small (4 * (y / 4) + 3)) by u32_arith.
    u32_arith.
  - rewrite !aligned_frame_size_unix32. cbv zeta.
    set (e := if noProlog then 0xc else 0).
    assert (He : e = 12 \/ e = 0) by (destruct noProlog; subst e; lia).
    pose proof (u32_range (u32 (frameSize - e) + 15)) as Hy.
    set (y := u32 (u32 (frameSize - e) + 15)) in *.
    set (a := 16 * (y / 16)).
    assert (Ha : 0 <= a <= 4294967296 - 16 /\ a mod 16 = 0) by (subst a; u32_arith).
    assert (H1 : u32 (u32 (a + e) - e) = a) by (clearbody a; clear Hy; u32_arith).
    rewrite H1.
    rewrite (u32_small (a + 15)) by (clearbody a; clear Hy; u32_arith).
    replace (16 * ((a + 15) / 16)) with a by (clearbody a; clear Hy; u32_arith).
    reflexivity.
  - reflexivity.
  - reflexivity.
Qed.

(** * The stack adjustment emitters *)

Lemma emits_append (ilen : Instr -> Z) (f : Emit) (c : Z) (l : list Instr) :
  (forall e, f e = append ilen e l) -> emits f c = l.
Proof. intros H. unfold emits. rewrite H. reflexivity. Qed.

Lemma fill_size_small (frameSize : Z) (noProlog : bool) :
  0 <= fill_size Win32 frameSize noProlog <= 3 /\
  0 <= fill_size Unix32 frameSize noProlog <= 15.
Proof.
  unfold fill_size. rewrite aligned_frame_size_win32, aligned_frame_size_unix32.
  cbv zeta. set (e := if noProlog then 0xc else 0).
  clearbody e. split; u32_arith.
Qed.

Lemma fill_size_frame_0 (abi : ABI) (noProlog : bool) :
  fill_size abi 0 noProlog = ABI_GetAlignedFrameSize abi 0 noProlog /\
  0 <= ABI_GetAlignedFrameSize abi 0 noProlog <= 0x28.
Proof. destruct abi, noProlog; vm_compute; repeat split; congruence. Qed.

(** C3, as the code has it: [ABI_AlignStack(frameSize, noProlog)] emits
    exactly one subtract from the stack pointer of
    [ABI_GetAlignedFrameSize(frameSize, noProlog) - frameSize] with an
    8-bit immediate when that difference is nonzero, and nothing when it is
    zero; [ABI_RestoreStack] emits exactly one add of the whole aligned
    size [ABI_GetAlignedFrameSize(frameSize, noProlog)] (the padding and
    the frame) with an 8-bit immediate when the aligned size is nonzero,
    and nothing when it is zero.  With [frameSize = 0] the two amounts are
    the same, at most 0x28; on the 32-bit builds the padding is at most 3
    (Windows) and 15 (others). *)
Theorem stack_adjustment_emitters (ilen : Instr -> Z) (abi : ABI) (frameSize : Z)
    (noProlog : bool) (c : Z) :
  let alignedSize := ABI_GetAlignedFrameSize abi frameSize noProlog in
  let fillSize := u32 (alignedSize - frameSize) in
  emits (ABI_AlignStack ilen abi frameSize noProlog) c
  = (if fillSize =? 0 then [] else [iSUB (ptr_bits abi) (R RSP) (Imm8 fillSize)]) /\
  emits (ABI_RestoreStack ilen abi frameSize noProlog) c
  = (if alignedSize =? 0 then [] else [iADD (ptr_bits abi) (R RSP) (Imm8 alignedSize)]) /\
  u32 (ABI_GetAlignedFrameSize abi 0 noProlog - 0) = ABI_GetAlignedFrameSize abi 0 noProlog /\
  0 <= ABI_GetAlignedFrameSize abi 0 noProlog <= 0x28 /\
  0 <= u32 (ABI_GetAlignedFrameSize Win32 frameSize noProlog - frameSize) <= 3 /\
  0 <= u32 (ABI_GetAlignedFrameSize Unix32 frameSize noProlog - frameSize) <= 15.
Proof.
  cbv zeta.
  split; [apply (emits_append ilen); intros e; apply AlignStack_append|].
  split; [apply (emits_append ilen); intros e; apply RestoreStack_append|].
  split; [apply (fill_size_frame_0 abi noProlog)|].
  split; [apply (fill_size_frame_0 abi noProlog)|].
  apply fill_size_small.
Qed.

(** C3, as stated, fails: on the 32-bit non-Windows build with an 8-byte
    frame, align subtracts 8 and restore does not add 8 (it adds 16); with
    a 16-byte frame align emits nothing and restore emits an add. *)
Lemma restore_stack_not_mirror :
  emits (ABI_AlignStack (fun _ => 1) Unix32 8 false) 0 = [iSUB 32 (R RSP) (Imm 8 8)] /\
  emits (ABI_RestoreStack (fun _ => 1) Unix32 8 false) 0 <> [iADD 32 (R RSP) (Imm 8 8)] /\
  emits (ABI_AlignStack (fun _ => 1) Unix32 16 false) 0 = [] /\
  emits (ABI_RestoreStack (fun _ => 1) Unix32 16 false) 0 <> [].
Proof. vm_compute. repeat split; discriminate. Qed.

(** * The register save/restore unit *)

Lemma no_adjust_in_save (mask : Z) (off : Z) :
  existsb is_stack_adjust (map iPUSH (gp_selected mask)) = false /\
  existsb is_stack_adjust (map iPOP (rev (gp_selected mask))) = false /\
  existsb is_stack_adjust (vec_stores off (vec_selected mask)) = false /\
  existsb is_stack_adjust (vec_loads off (vec_selected mask)) = false.
Proof.
  repeat split.
  - induction (gp_selected mask); simpl; auto.
  - induction (rev (gp_selected mask)); simpl; auto.
  - revert off. induction (vec_selected mask); intros off; simpl; auto.
  - revert off. induction (vec_selected mask); intros off; simpl; auto.
Qed.

(** C9: for every register mask and [noProlog] flag, the one stack
    adjustment of [ABI_PushRegistersAndAdjustStack] (a SUB) and of
    [ABI_PopRegistersAndAdjustStack] (an ADD) carries the same byte total,
    in a 32-bit immediate when the total is at least 0x80 and in an 8-bit
    immediate otherwise; the immediate holds the total itself, which is at
    most 303 and at least 16 bytes per selected vector register (so eight
    vector registers already take the 32-bit form); nothing else in either
    sequence adjusts the stack pointer by ADD or SUB. *)
Theorem save_restore_adjust_encoding (ilen : Instr -> Z) (abi : ABI) (mask : Z)
    (noProlog : bool) (c : Z) :
  let size := adjust_size abi mask noProlog in
  let imm := if 0x80 <=? size then Imm 32 size else Imm 8 size in
  emits (ABI_PushRegistersAndAdjustStack ilen abi mask noProlog) c
  = map iPUSH (gp_selected mask)
    ++ (if size =? 0 then [] else [iSUB (regSize abi * 8) (R RSP) imm])
    ++ vec_stores (shadow_space abi) (vec_selected mask) /\
  emits (ABI_PopRegistersAndAdjustStack ilen abi mask noProlog) c
  = vec_loads (shadow_space abi) (vec_selected mask)
    ++ (if size =? 0 then [] else [iADD (regSize abi * 8) (R RSP) imm])
    ++ map iPOP (rev (gp_selected mask)) /\
  0 <= size <= 303 /\
  16 * Z.of_nat (length (vec_selected mask)) <= size /\
  existsb is_stack_adjust
    (map iPUSH (gp_selected mask) ++ vec_stores (shadow_space abi) (vec_selected mask)
     ++ vec_loads (shadow_space abi) (vec_selected mask)
     ++ map iPOP (rev (gp_selected mask))) = false.
Proof.
  cbv zeta.
  split; [apply (emits_append ilen); intros e; apply writes_push|].
  split; [apply (emits_append ilen); intros e; apply writes_pop|].
  split; [apply adjust_size_range|].
  split.
  - pose proof (adjust_size_covers abi mask noProlog).
    pose proof (shadow_space_nonneg abi). lia.
  - destruct (no_adjust_in_save mask (shadow_space abi)) as (H1 & H2 & H3 & H4).
    rewrite !existsb_app, H1, H2, H3, H4. reflexivity.
Qed.

(** * The call-site builder *)

Lemma no_call_in_adjust (abi : ABI) (frameSize : Z) (noProlog : bool) :
  existsb is_call (align_code abi frameSize noProlog) = false /\
  existsb is_call (restore_code abi frameSize noProlog) = false.
Proof.
  unfold align_code, restore_code. cbv zeta.
  split; destruct (_ =? 0); reflexivity.
Qed.

Lemma no_call_in_move_unless (b : bool) (bits dst : Z) (src : OpArg) :
  existsb is_call (move_unless b bits dst src) = false.
Proof. destruct b; reflexivity. Qed.

Lemma no_call_in_prolog (abi : ABI) (cs : All64.CallSite) :
  existsb is_call (call_prolog abi cs) = false.
Proof.
  unfold call_prolog. rewrite existsb_app.
  rewrite (proj1 (no_call_in_adjust abi 0 (site_noProlog cs))). cbn [orb].
  destruct cs; cbn [arg_moves]; cbv zeta;
    try destruct (reg2 =? ABI_PARAM1 abi);
    rewrite ?existsb_app, ?no_call_in_move_unless; reflexivity.
Qed.

Lemma fits_rel32_offset (k c : Z) :
  fits_rel32 (u64 (c + 5 + k)) c
  = let d := s64 (u64 k) in (- 2 ^ 31 <=? d) && (d <? 2 ^ 31).
Proof.
  unfold fits_rel32. cbv zeta. f_equal; f_equal; f_equal;
    unfold u64; change (2 ^ 64) with 18446744073709551616;
    Z.div_mod_to_equations; lia.
Qed.

(** C6: every 64-bit call emitter, after its stack alignment and argument
    moves, reads the write address [at_call], computes
    [target - (at_call + 5)] and writes the direct near call exactly when
    that distance, read as a signed 64-bit number, lies in
    [-2^31, 2^31); otherwise it writes the load of the absolute address
    into RAX and the indirect call.  A target 0x7FFFFFFF bytes above
    [at_call + 5] gets the near call, one byte further the indirect call;
    the same holds 0x80000000 and 0x80000001 bytes below. *)
Theorem far_call_decision (ilen : Instr -> Z) (abi : ABI) (cs : All64.CallSite) (c : Z) :
  M_X64 abi = true ->
  let at_call := advance ilen c (call_prolog abi cs) in
  (forall func,
     emits (All64.emit_call_site ilen abi func cs) c
     = call_prolog abi cs
       ++ (if fits_rel32 func at_call then [iCALL func]
           else [iMOV 64 (R RAX) (Imm 64 (u64 func)); iCALLptr (R RAX)])
       ++ restore_code abi 0 (site_noProlog cs)) /\
  existsb is_call (call_prolog abi cs) = false /\
  existsb is_call (restore_code abi 0 (site_noProlog cs)) = false /\
  (forall func,
     fits_rel32 func at_call = true
     <-> - 2 ^ 31 <= s64 (u64 (func - (at_call + 5))) < 2 ^ 31) /\
  fits_rel32 (u64 (at_call + 5 + 0x7FFFFFFF)) at_call = true /\
  fits_rel32 (u64 (at_call + 5 + 0x80000000)) at_call = false /\
  fits_rel32 (u64 (at_call + 5 + - 0x80000000)) at_call = true /\
  fits_rel32 (u64 (at_call + 5 + - 0x80000001)) at_call = false.
Proof.
  intros _. cbv zeta.
  split.
  { intros func. unfold emits. rewrite call_site_append. reflexivity. }
  split; [apply no_call_in_prolog|].
  split; [apply no_call_in_adjust|].
  split.
  { intros func. unfold fits_rel32. cbv zeta.
    rewrite andb_true_iff, Z.leb_le, Z.ltb_lt. reflexivity. }
  rewrite !fits_rel32_offset. repeat split; reflexivity.
Qed.

(** C6 at a concrete call site: the Unix64 build, [ABI_CallFunctionCC]
    with the arguments 10 and 20, emitted at address 0x1000. *)
Lemma far_call_decision_witness :
  M_X64 Unix64 = true /\
  (let ilen := fun _ : Instr => 1 in
   let cs := All64.CallCC 10 20 in
   let at_call := advance ilen 0x1000 (call_prolog Unix64 cs) in
   (forall func,
      emits (All64.emit_call_site ilen Unix64 func cs) 0x1000
      = call_prolog Unix64 cs
        ++ (if fits_rel32 func at_call then [iCALL func]
            else [iMOV 64 (R RAX) (Imm 64 (u64 func)); iCALLptr (R RAX)])
        ++ restore_code Unix64 0 (site_noProlog cs)) /\
   existsb is_call (call_prolog Unix64 cs) = false /\
   existsb is_call (restore_code Unix64 0 (site_noProlog cs)) = false /\
   (forall func,
      fits_rel32 func at_call = true
      <-> - 2 ^ 31 <= s64 (u64 (func - (at_call + 5))) < 2 ^ 31) /\
   fits_rel32 (u64 (at_call + 5 + 0x7FFFFFFF)) at_call = true /\
   fits_rel32 (u64 (at_call + 5 + 0x80000000)) at_call = false /\
   fits_rel32 (u64 (at_call + 5 + - 0x80000000)) at_call = true /\
   fits_rel32 (u64 (at_call + 5 + - 0x80000001)) at_call = false).
Proof.
  split; [reflexivity|].
  apply (far_call_decision (fun _ => 1) Unix64 (All64.CallCC 10 20) 0x1000).
  reflexivity.
Defined.

Lemma align_restore_x64_frame_0 (abi : ABI) :
  M_X64 abi = true ->
  align_code abi 0 false = [] /\ restore_code abi 0 false = [].
Proof. destruct abi; intros H; try discriminate H; split; reflexivity. Qed.

Lemma exec_mov64_imm (dst v : Z) (s : Machine) :
  exec_instr 8 (iMOV 64 (R dst) (Imm 64 (u64 v))) s = Some (set_gpr dst (u64 v) s).
Proof.
  cbn [exec_instr mov_source]. change (64 =? 64) with true.
  change (((64 =? 32) || true) && (64 <=? 8 * 8)) with true. cbv iota.
  fold (u64 (u64 v)). rewrite u64_idem. reflexivity.
Qed.

Lemma exec_mov_reg (bits dst src : Z) (s : Machine) :
  bits = 32 \/ bits = 64 ->
  exec_instr 8 (iMOV bits (R dst) (R src)) s
  = Some (set_gpr dst (gpr s src mod 2 ^ bits) s).
Proof. intros [-> | ->]; reflexivity. Qed.

Lemma exec_mov32_imm (dst v : Z) (s : Machine) :
  exec_instr 8 (iMOV 32 (R dst) (Imm 32 (u32 v))) s = Some (set_gpr dst (u32 v) s).
Proof.
  cbn [exec_instr mov_source]. change (32 =? 32) with true.
  change ((true || (32 =? 64)) && (32 <=? 8 * 8)) with true. cbv iota.
  fold (u32 (u32 v)). rewrite (u32_small (u32 v)) by apply u32_range. reflexivity.
Qed.

(** C10, as the code has it: on the 64-bit builds, every call emitter
    whose target does not fit the 32-bit displacement writes, after all its
    argument moves, the load of the absolute target address into RAX
    immediately followed by the indirect call through RAX, so RAX is not
    preserved on that path; a register argument passed in RAX is still
    delivered, because [ABI_CallFunctionR] copies it to the first argument
    register before RAX is overwritten. *)
Theorem far_call_scratch_register (ilen : Instr -> Z) (abi : ABI) (cs : All64.CallSite)
    (func c : Z) :
  M_X64 abi = true ->
  fits_rel32 func (advance ilen c (call_prolog abi cs)) = false ->
  emits (All64.emit_call_site ilen abi func cs) c
  = call_prolog abi cs
    ++ [iMOV 64 (R RAX) (Imm 64 (u64 func)); iCALLptr (R RAX)]
    ++ restore_code abi 0 (site_noProlog cs) /\
  existsb is_call (call_prolog abi cs) = false /\
  (forall s, exec_instr 8 (iMOV 64 (R RAX) (Imm 64 (u64 func))) s
             = Some (set_gpr RAX (u64 func) s)) /\
  (forall reg1 s, exists s',
     exec 8 (call_prolog abi (All64.CallR reg1) ++ [iMOV 64 (R RAX) (Imm 64 (u64 func))]) s
     = Some s' /\
     u32 (gpr s' (ABI_PARAM1 abi)) = u32 (gpr s reg1) /\
     gpr s' RAX = u64 func).
Proof.
  intros H64 Hfar.
  split.
  { unfold emits. rewrite call_site_append. cbn [code emitted app].
    unfold call_sequence. rewrite Hfar. reflexivity. }
  split; [apply no_call_in_prolog|].
  split; [intros s; apply exec_mov64_imm|].
  intros reg1 s. unfold call_prolog. cbn [site_noProlog arg_moves]. cbv zeta.
  rewrite (proj1 (align_restore_x64_frame_0 abi H64)). cbn [app].
  assert (Hne : ABI_PARAM1 abi <> RAX) by (destruct abi; discriminate).
  unfold move_unless. destruct (Z.eqb_spec reg1 (ABI_PARAM1 abi)) as [-> | Hr].
  - exists (set_gpr RAX (u64 func) s). cbn [app exec]. rewrite exec_mov64_imm.
    repeat split. rewrite gpr_set_gpr.
    destruct (Z.eqb_spec (ABI_PARAM1 abi) RAX); [contradiction | reflexivity].
  - exists (set_gpr RAX (u64 func) (set_gpr (ABI_PARAM1 abi) (gpr s reg1 mod 2 ^ 32) s)).
    cbn [app exec]. rewrite exec_mov_reg by (left; reflexivity).
    rewrite exec_mov64_imm. split; [reflexivity|]. split.
    + rewrite !gpr_set_gpr.
      destruct (Z.eqb_spec (ABI_PARAM1 abi) RAX); [contradiction|].
      rewrite Z.eqb_refl. apply u32_small. apply Z.mod_pos_bound. lia.
    + rewrite gpr_set_gpr, Z.eqb_refl. reflexivity.
Qed.

(** C10 at a concrete call site: the Unix64 build, [ABI_CallFunctionR]
    with its argument in RAX, emitted at 0x1000 for a target at
    0x100000000000. *)
Lemma far_call_scratch_register_witness :
  M_X64 Unix64 = true /\
  fits_rel32 0x100000000000
    (advance (fun _ => 1) 0x1000 (call_prolog Unix64 (All64.CallR RAX))) = false /\
  emits (All64.emit_call_site (fun _ => 1) Unix64 0x100000000000 (All64.CallR RAX)) 0x1000
  = call_prolog Unix64 (All64.CallR RAX)
    ++ [iMOV 64 (R RAX) (Imm 64 (u64 0x100000000000)); iCALLptr (R RAX)]
    ++ restore_code Unix64 0 (site_noProlog (All64.CallR RAX)).
Proof.
  split; [reflexivity|]. split; [reflexivity|].
  apply (far_call_scratch_register (fun _ => 1) Unix64 (All64.CallR RAX)
           0x100000000000 0x1000); reflexivity.
Defined.

(** C10, as stated, fails: on the Unix64 build, with a target out of near
    range, [ABI_CallFunctionR(func, RAX)] emits the move of RAX into the
    first argument register before RAX is loaded with the target; run from
    a state where RAX holds 42, the code before the indirect call leaves 42
    in RDI.  An argument passed in RAX is delivered on the far path. *)
Lemma rax_argument_is_delivered :
  emits (All64.ABI_CallFunctionR (fun _ => 1) Unix64 0x100000000000 RAX) 0x1000
  = [iMOV 32 (R RDI) (R RAX); iMOV 64 (R RAX) (Imm 64 0x100000000000); iCALLptr (R RAX)] /\
  option_map (fun s' => (gpr s' RDI, gpr s' RAX))
    (exec 8 [iMOV 32 (R RDI) (R RAX); iMOV 64 (R RAX) (Imm 64 0x100000000000)]
       {| gpr := fun r => if r =? RAX then 42 else 0;
          xmm := fun _ => 0; mem := fun _ => 0 |})
  = Some (42, 0x100000000000).
Proof. split; vm_compute; reflexivity. Qed.

(** The argument moves of [ABI_CallFunctionRR] deliver both registers for
    every pair of sources other than the exchanged pair
    ([reg1] in the second argument register and [reg2] in the first). *)
Lemma CallFunctionRR_moves_deliver (abi : ABI) (reg1 reg2 : Z) (noProlog : bool)
    (s : Machine) :
  M_X64 abi = true ->
  ~ (reg1 = ABI_PARAM2 abi /\ reg2 = ABI_PARAM1 abi) ->
  exists s',
    exec 8 (arg_moves abi (All64.CallRR reg1 reg2 noProlog)) s = Some s' /\
    u64 (gpr s' (ABI_PARAM1 abi)) = u64 (gpr s reg1) /\
    u64 (gpr s' (ABI_PARAM2 abi)) = u64 (gpr s reg2).
Proof.
  intros H64 Hswap. cbn [arg_moves]. cbv zeta.
  assert (Hne : ABI_PARAM1 abi <> ABI_PARAM2 abi) by (destruct abi; discriminate).
  set (P1 := ABI_PARAM1 abi) in *. set (P2 := ABI_PARAM2 abi) in *.
  unfold move_unless.
  assert (Hu : forall v, u64 (v mod 2 ^ 64) = u64 v) by (intros v; apply u64_idem).
  destruct (Z.eqb_spec reg2 P1) as [E21 | N21];
    destruct (Z.eqb_spec reg1 P1) as [E11 | N11];
    destruct (Z.eqb_spec reg2 P2) as [E22 | N22];
    try congruence; cbn [app exec];
    rewrite ?exec_mov_reg by (right; reflexivity);
    eexists; (split; [reflexivity|]);
    rewrite ?gpr_set_gpr, ?Z.eqb_refl;
    repeat match goal with
           | |- context [?a =? ?b] => destruct (Z.eqb_spec a b)
           end;
    try congruence;
    try (exfalso; apply Hswap; split; congruence);
    rewrite ?Hu; split; congruence.
Qed.

(** C5 on the exchanged pair: with [reg1] the second argument register and
    [reg2] the first, the 64-bit [ABI_CallFunctionRR] writes the move into
    the second argument register and then the move back out of it, and
    after the two moves both argument registers hold the value [reg2] had:
    the value of [reg1] is lost. *)
Theorem CallFunctionRR_exchanged_pair (ilen : Instr -> Z) (abi : ABI) (func c : Z)
    (s : Machine) :
  M_X64 abi = true ->
  let P1 := ABI_PARAM1 abi in
  let P2 := ABI_PARAM2 abi in
  let moves := [iMOV 64 (R P2) (R P1); iMOV 64 (R P1) (R P2)] in
  emits (All64.ABI_CallFunctionRR ilen abi func P2 P1 false) c
  = moves ++ call_sequence func (advance ilen c moves) /\
  exists s',
    exec 8 moves s = Some s' /\
    gpr s' P1 = u64 (gpr s P1) /\ gpr s' P2 = u64 (gpr s P1).
Proof.
  intros H64. cbv zeta.
  assert (Hne : ABI_PARAM1 abi <> ABI_PARAM2 abi) by (destruct abi; discriminate).
  split.
  - change (All64.ABI_CallFunctionRR ilen abi func (ABI_PARAM2 abi) (ABI_PARAM1 abi) false)
      with (All64.emit_call_site ilen abi func
              (All64.CallRR (ABI_PARAM2 abi) (ABI_PARAM1 abi) false)).
    unfold emits. rewrite call_site_append. cbn [code emitted app].
    unfold call_prolog. cbn [site_noProlog arg_moves]. cbv zeta.
    destruct (align_restore_x64_frame_0 abi H64) as [-> ->].
    rewrite Z.eqb_refl. unfold move_unless.
    destruct (Z.eqb_spec (ABI_PARAM1 abi) (ABI_PARAM2 abi)); [contradiction|].
    destruct (Z.eqb_spec (ABI_PARAM2 abi) (ABI_PARAM1 abi)); [congruence|].
    cbn [app]. rewrite app_nil_r. reflexivity.
  - eexists. cbn [exec]. rewrite !exec_mov_reg by (right; reflexivity).
    split; [reflexivity|].
    rewrite !gpr_set_gpr, !Z.eqb_refl.
    destruct (Z.eqb_spec (ABI_PARAM1 abi) (ABI_PARAM2 abi)); [contradiction|].
    destruct (Z.eqb_spec (ABI_PARAM2 abi) (ABI_PARAM1 abi)); [congruence|].
    fold (u64 (gpr s (ABI_PARAM1 abi))).
    fold (u64 (u64 (gpr s (ABI_PARAM1 abi)))). rewrite u64_idem.
    split; reflexivity.
Qed.

(** C5 on the Unix64 build with RDI = 1 and RSI = 2: called with
    [reg1 = RSI] and [reg2 = RDI], the moves leave 1 in both. *)
Lemma CallFunctionRR_exchanged_pair_witness :
  M_X64 Unix64 = true /\
  exists s',
    exec 8 [iMOV 64 (R RSI) (R RDI); iMOV 64 (R RDI) (R RSI)]
      {| gpr := fun r => if r =? RDI then 1 else if r =? RSI then 2 else 0;
         xmm := fun _ => 0; mem := fun _ => 0 |} = Some s' /\
    gpr s' RDI = u64 1 /\ gpr s' RSI = u64 1.
Proof.
  split; [reflexivity|].
  apply (CallFunctionRR_exchanged_pair (fun _ => 1) Unix64 0x2000 0x1000
           {| gpr := fun r => if r =? RDI then 1 else if r =? RSI then 2 else 0;
              xmm := fun _ => 0; mem := fun _ => 0 |}).
  reflexivity.
Defined.

Lemma wrap_sext32 (v : Z) : wrap 4 (sext 32 v) = v mod 2 ^ 32.
Proof.
  unfold wrap, sext. cbv zeta. change (2 ^ (8 * 4)) with (2 ^ 32).
  change (2 ^ (32 - 1)) with 2147483648. change (2 ^ 32) with 4294967296.
  destruct (v mod 4294967296 <? 2147483648); Z.div_mod_to_equations; lia.
Qed.

Lemma exec_pushw_imm32 (v : Z) (s : Machine) :
  4 <= gpr s RSP < 2 ^ 32 ->
  exec_instr 4 (iPUSHw 32 (Imm 32 v)) s
  = Some (set_mem (store_bytes 4 (gpr s RSP - 4) (v mod 2 ^ 32) (mem s))
                  (set_gpr RSP (gpr s RSP - 4) s)).
Proof.
  intros H. cbn [exec_instr]. change (32 =? 8 * 4) with true. cbv iota.
  rewrite wrap_sext32. rewrite wrap_small by (change (2 ^ (8 * 4)) with (2 ^ 32); lia).
  reflexivity.
Qed.

Lemma exec_align_8 (abi : ABI) (s : Machine) :
  M_X64 abi = false ->
  16 <= gpr s RSP < 2 ^ 32 ->
  exists s1,
    exec 4 (align_code abi 8 false) s = Some s1 /\
    8 <= gpr s1 RSP < 2 ^ 32 /\ mem s1 = mem s.
Proof.
  intros H32 Hsp. destruct abi; try discriminate H32.
  - exists s. split; [reflexivity|]. split; [lia | reflexivity].
  - exists (set_gpr RSP (gpr s RSP - 8) s).
    change (align_code Unix32 8 false) with [iSUB 32 (R RSP) (Imm 8 8)].
    cbn [exec exec_instr]. change ((32 =? 8 * 4) && ((8 =? 8) || (8 =? 32))) with true.
    cbv iota. change (sext 8 8) with 8.
    rewrite wrap_small by (change (2 ^ (8 * 4)) with (2 ^ 32); lia).
    split; [reflexivity|]. rewrite gpr_set_gpr, Z.eqb_refl.
    split; [lia | reflexivity].
Qed.

(** C7: on the 32-bit builds [ABI_CallFunctionCC(func, param1, param2)]
    pushes [param2] and then [param1], so at the call [param1] is at the
    stack pointer (the lowest offset, the first argument slot) and [param2]
    four bytes above; on the 64-bit builds it moves [param1] into the first
    argument register and [param2] into the second. *)
Theorem CallFunctionCC_argument_order (ilen : Instr -> Z) (abi32 abi64 : ABI)
    (func param1 param2 c : Z) (m32 m64 : Machine) :
  M_X64 abi32 = false ->
  M_X64 abi64 = true ->
  16 <= gpr m32 RSP < 2 ^ 32 ->
  let pushes := [iPUSHw 32 (Imm 32 (u32 param2)); iPUSHw 32 (Imm 32 (u32 param1))] in
  let moves := [iMOV 32 (R (ABI_PARAM1 abi64)) (Imm 32 (u32 param1));
                iMOV 32 (R (ABI_PARAM2 abi64)) (Imm 32 (u32 param2))] in
  (emits (All32.ABI_CallFunctionCC ilen abi32 func param1 param2) c
   = align_code abi32 8 false ++ pushes ++ [iCALL func] ++ restore_code abi32 8 false /\
   exists s',
     exec 4 (align_code abi32 8 false ++ pushes) m32 = Some s' /\
     load_bytes 4 (gpr s' RSP) (mem s') = u32 param1 /\
     load_bytes 4 (gpr s' RSP + 4) (mem s') = u32 param2) /\
  (emits (All64.ABI_CallFunctionCC ilen abi64 func param1 param2) c
   = moves ++ call_sequence func (advance ilen c moves) /\
   exists s',
     exec 8 moves m64 = Some s' /\
     gpr s' (ABI_PARAM1 abi64) = u32 param1 /\
     gpr s' (ABI_PARAM2 abi64) = u32 param2).
Proof.
  intros H32 H64 Hsp. cbv zeta. split; split.
  - unfold emits, All32.ABI_CallFunctionCC, seq_emit, PUSHw, CALL.
    change (2 * 4) with 8.
    rewrite AlignStack_append, !Write_append, RestoreStack_append, !append_append.
    cbn [emitted append app]. rewrite <- ?app_assoc. reflexivity.
  - destruct (exec_align_8 abi32 m32 H32 Hsp) as (s1 & Hex1 & Hsp1 & Hm1).
    eexists. rewrite exec_app, Hex1. cbn [exec].
    rewrite exec_pushw_imm32 by lia.
    rewrite exec_pushw_imm32 by (cbn [set_mem gpr]; rewrite gpr_set_gpr, Z.eqb_refl; lia).
    split; [reflexivity|].
    cbn [set_mem gpr mem]. rewrite !gpr_set_gpr, !Z.eqb_refl.
    split.
    + rewrite load_store_same. change (8 * Z.of_nat 4) with 32.
      rewrite Z.mod_mod by lia. unfold u32. rewrite Z.mod_mod by lia. reflexivity.
    + replace (gpr s1 RSP - 4 - 4 + 4) with (gpr s1 RSP - 4) by lia.
      rewrite load_store_disjoint by (change (Z.of_nat 4) with 4; lia).
      rewrite load_store_same. change (8 * Z.of_nat 4) with 32.
      rewrite Z.mod_mod by lia. unfold u32. rewrite Z.mod_mod by lia. reflexivity.
  - change (All64.ABI_CallFunctionCC ilen abi64 func param1 param2)
      with (All64.emit_call_site ilen abi64 func (All64.CallCC param1 param2)).
    unfold emits. rewrite call_site_append. cbn [code emitted app].
    unfold call_prolog. cbn [site_noProlog arg_moves]. cbv zeta.
    destruct (align_restore_x64_frame_0 abi64 H64) as [-> ->].
    cbn [app]. unfold Imm32. rewrite app_nil_r. reflexivity.
  - assert (Hne : ABI_PARAM1 abi64 <> ABI_PARAM2 abi64) by (destruct abi64; discriminate).
    eexists. cbn [exec]. rewrite !exec_mov32_imm. split; [reflexivity|].
    rewrite !gpr_set_gpr, !Z.eqb_refl.
    destruct (Z.eqb_spec (ABI_PARAM1 abi64) (ABI_PARAM2 abi64)); [contradiction|].
    split; reflexivity.
Qed.

(** C7 for [ABI_CallFunctionCC(0x2000, 10, 20)] on the Unix32 and Unix64
    builds. *)
Lemma CallFunctionCC_argument_order_witness :
  M_X64 Unix32 = false /\ M_X64 Unix64 = true /\ 16 <= 0x1000 < 2 ^ 32 /\
  emits (All32.ABI_CallFunctionCC (fun _ => 1) Unix32 0x2000 10 20) 0x1000
  = [iSUB 32 (R RSP) (Imm 8 8); iPUSHw 32 (Imm 32 20); iPUSHw 32 (Imm 32 10);
     iCALL 0x2000; iADD 32 (R RSP) (Imm 8 16)] /\
  emits (All64.ABI_CallFunctionCC (fun _ => 1) Unix64 0x2000 10 20) 0x1000
  = [iMOV 32 (R RDI) (Imm 32 10); iMOV 32 (R RSI) (Imm 32 20); iCALL 0x2000].
Proof.
  split; [reflexivity|]. split; [reflexivity|]. split; [lia|].
  pose proof (CallFunctionCC_argument_order (fun _ => 1) Unix32 Unix64 0x2000 10 20 0x1000
                {| gpr := fun _ => 0x1000; xmm := fun _ => 0; mem := fun _ => 0 |}
                {| gpr := fun _ => 0; xmm := fun _ => 0; mem := fun _ => 0 |}
                eq_refl eq_refl ltac:(cbn; lia)) as [[H1 _] [H2 _]].
  split; [exact H1 | exact H2].
Defined.

(** * Save followed by restore *)

Lemma in_reg_numbers (r : Z) : 0 <= r < 16 -> In r reg_numbers.
Proof.
  intros H. unfold reg_numbers. apply in_map_iff. exists (Z.to_nat r).
  split; [lia | apply in_seq; lia].
Qed.

(** C4: for every register mask and every prolog flag,
    [ABI_PushRegistersAndAdjustStack] writes the pushes of the selected
    general-purpose registers in ascending order, one subtraction, and the
    stores of the selected vector registers at ascending 16-byte offsets
    from the shadow space; [ABI_PopRegistersAndAdjustStack] writes the
    loads from the same offsets, the addition of the same byte total, and
    the pops in descending order.  Run on a machine with room for the save
    area and, when a vector register is selected, a stack pointer of the
    alignment the prolog flag announces (MOVAPD faults otherwise), the save
    moves the stack pointer down by the pushes and the total;
    then, whatever happens to the registers other than the stack pointer
    and to the memory outside the save area, the restore brings the stack
    pointer and every selected register back to its value before the
    save. *)
Theorem save_restore_round_trip (ilen : Instr -> Z) (abi : ABI) (mask : Z)
    (noProlog : bool) (c1 c2 : Z) (s : Machine) :
  wf_machine (regSize abi) s ->
  regSize abi * Z.of_nat (length (gp_selected mask)) + adjust_size abi mask noProlog
  <= gpr s RSP ->
  vec_selected mask = [] \/
  (gpr s RSP + (if noProlog then regSize abi else 0)) mod 16 = 0 ->
  let save := emits (ABI_PushRegistersAndAdjustStack ilen abi mask noProlog) c1 in
  let restore := emits (ABI_PopRegistersAndAdjustStack ilen abi mask noProlog) c2 in
  save = map iPUSH (gp_selected mask) ++ adjust_sub abi mask noProlog
         ++ vec_stores (shadow_space abi) (vec_selected mask) /\
  restore = vec_loads (shadow_space abi) (vec_selected mask) ++ adjust_add abi mask noProlog
            ++ map iPOP (rev (gp_selected mask)) /\
  exists s1,
    exec (regSize abi) save s = Some s1 /\
    gpr s1 RSP = gpr s RSP - (regSize abi * Z.of_nat (length (gp_selected mask))
                              + adjust_size abi mask noProlog) /\
    forall s2,
      gpr s2 RSP = gpr s1 RSP ->
      (forall a, gpr s1 RSP <= a < gpr s RSP -> mem s2 a = mem s1 a) ->
      exists s3,
        exec (regSize abi) restore s2 = Some s3 /\
        gpr s3 RSP = gpr s RSP /\
        (forall r, 0 <= r < 16 -> mask_has mask r = true -> gpr s3 r = gpr s r) /\
        (forall x, 0 <= x < 16 -> mask_has mask (16 + x) = true -> xmm s3 x = xmm s x).
Proof.
  intros Hwf Hroom Hal. cbv zeta.
  assert (Hsave : emits (ABI_PushRegistersAndAdjustStack ilen abi mask noProlog) c1
                  = push_code abi mask noProlog)
    by (apply (emits_append ilen); intros e; apply writes_push).
  assert (Hrest : emits (ABI_PopRegistersAndAdjustStack ilen abi mask noProlog) c2
                  = pop_code abi mask noProlog)
    by (apply (emits_append ilen); intros e; apply writes_pop).
  rewrite Hsave, Hrest.
  split; [reflexivity|]. split; [reflexivity|].
  destruct (save_restore_machine abi mask noProlog s Hwf Hroom Hal)
    as (s1 & Hex1 & Hsp1 & Hback).
  exists s1. split; [exact Hex1|]. split; [exact Hsp1|].
  intros s2 Hsp2 Hagree.
  destruct (Hback s2 Hsp2 Hagree) as (s3 & Hex3 & Hsp3 & Hgp & Hvec).
  exists s3. split; [exact Hex3|]. split; [exact Hsp3|]. split.
  - intros r Hr Hm. apply Hgp. apply filter_In. split; [apply in_reg_numbers; exact Hr | exact Hm].
  - intros x Hx Hm. apply Hvec. apply filter_In. split; [apply in_reg_numbers; exact Hx | exact Hm].
Qed.

(** C4 on the Unix64 build without prolog, for the mask selecting RAX, RBX,
    XMM0 and XMM1, from a stack pointer of 0x7ff8. *)
Lemma save_restore_round_trip_witness :
  let s := {| gpr := fun r => if r =? RSP then 0x7ff8 else 7;
              xmm := fun _ => 5; mem := fun _ => 0 |} in
  let save := emits (ABI_PushRegistersAndAdjustStack (fun _ => 1) Unix64 0x30009 true) 0 in
  let restore := emits (ABI_PopRegistersAndAdjustStack (fun _ => 1) Unix64 0x30009 true) 0 in
  wf_machine 8 s /\
  8 * Z.of_nat (length (gp_selected 0x30009)) + adjust_size Unix64 0x30009 true
  <= gpr s RSP /\
  (vec_selected 0x30009 = [] \/ (gpr s RSP + 8) mod 16 = 0) /\
  save = [iPUSH 0; iPUSH 3; iSUB 64 (R RSP) (Imm 8 40);
          iMOVAPD_store (MDisp RSP 0) 0; iMOVAPD_store (MDisp RSP 16) 1] /\
  restore = [iMOVAPD_load 0 (MDisp RSP 0); iMOVAPD_load 1 (MDisp RSP 16);
             iADD 64 (R RSP) (Imm 8 40); iPOP 3; iPOP 0] /\
  exists s1,
    exec 8 save s = Some s1 /\
    gpr s1 RSP = 0x7ff8 - 56.
Proof.
  cbv zeta.
  assert (Hwf : wf_machine 8 {| gpr := fun r => if r =? RSP then 0x7ff8 else 7;
                                xmm := fun _ => 5; mem := fun _ => 0 |}).
  { split; intros r; cbn [gpr xmm].
    - change (2 ^ (8 * 8)) with 18446744073709551616. destruct (r =? RSP); lia.
    - change (2 ^ 128) with 340282366920938463463374607431768211456. lia. }
  assert (Hroom : 8 * Z.of_nat (length (gp_selected 0x30009)) + adjust_size Unix64 0x30009 true
                  <= 0x7ff8) by (vm_compute; discriminate).
  assert (Hal : vec_selected 0x30009 = [] \/ (0x7ff8 + 8) mod 16 = 0)
    by (right; reflexivity).
  split; [exact Hwf|]. split; [exact Hroom|]. split; [exact Hal|].
  destruct (save_restore_round_trip (fun _ => 1) Unix64 0x30009 true 0 0 _ Hwf Hroom Hal)
    as (Hsave & Hrest & s1 & Hex & Hsp & _).
  split; [exact Hsave|]. split; [exact Hrest|].
  exists s1. split; [exact Hex | exact Hsp].
Defined.

(** * Further properties of the frame alignment calculator *)

(** X1: the aligned frame size keeps the stack aligned.  On the 32-bit
    Windows build it is a multiple of 4; on every other build the aligned
    size plus the return-address slot that [noProlog] announces (4 or 8
    bytes, nothing with a prolog) is a multiple of 16, for every
    [frameSize]. *)
Theorem aligned_frame_size_keeps_alignment (frameSize : Z) (noProlog : bool) :
  ABI_GetAlignedFrameSize Win32 frameSize noProlog mod 4 = 0 /\
  (ABI_GetAlignedFrameSize Unix32 frameSize noProlog
   + (if noProlog then regSize Unix32 else 0)) mod 16 = 0 /\
  (ABI_GetAlignedFrameSize Win64 frameSize noProlog
   + (if noProlog then regSize Win64 else 0)) mod 16 = 0 /\
  (ABI_GetAlignedFrameSize Unix64 frameSize noProlog
   + (if noProlog then regSize Unix64 else 0)) mod 16 = 0.
Proof.
  split; [| split; [| split; destruct noProlog; reflexivity]].
  - rewrite aligned_frame_size_win32. u32_arith.
  - rewrite aligned_frame_size_unix32. cbv zeta. change (regSize Unix32) with 4.
    pose proof (u32_range (u32 (frameSize - (if noProlog then 0xc else 0)) + 15)) as Hy.
    set (y := u32 (u32 (frameSize - (if noProlog then 0xc else 0)) + 15)) in *.
    clearbody y. destruct noProlog; u32_arith.
Qed.

(** * Alignment and release of the stack around a call *)

Lemma ptr_bits_regSize (abi : ABI) : ptr_bits abi = 8 * regSize abi.
Proof. destruct abi; reflexivity. Qed.

Lemma sext8_small (k : Z) : 0 <= k < 128 -> sext 8 k = k.
Proof.
  intros H. unfold sext. cbv zeta. change (2 ^ 8) with 256. change (2 ^ (8 - 1)) with 128.
  rewrite Z.mod_small by lia. destruct (Z.ltb_spec k 128); [reflexivity | lia].
Qed.

Lemma exec_sub_imm8 (w bits k : Z) (s : Machine) :
  bits = 8 * w -> 0 <= k < 128 -> k <= gpr s RSP < 2 ^ (8 * w) ->
  exec_instr w (iSUB bits (R RSP) (Imm 8 k)) s = Some (set_gpr RSP (gpr s RSP - k) s).
Proof.
  intros -> Hk Hsp. cbn [exec_instr]. rewrite Z.eqb_refl. change ((8 =? 8) || (8 =? 32)) with true.
  cbn [andb]. rewrite sext8_small by exact Hk. rewrite wrap_small by lia. reflexivity.
Qed.

Lemma exec_add_imm8 (w bits k : Z) (s : Machine) :
  bits = 8 * w -> 0 <= k < 128 -> 0 <= gpr s RSP -> gpr s RSP + k < 2 ^ (8 * w) ->
  exec_instr w (iADD bits (R RSP) (Imm 8 k)) s = Some (set_gpr RSP (gpr s RSP + k) s).
Proof.
  intros -> Hk Hlo Hhi. cbn [exec_instr]. rewrite Z.eqb_refl.
  change ((8 =? 8) || (8 =? 32)) with true.
  cbn [andb]. rewrite sext8_small by exact Hk. rewrite wrap_small by lia. reflexivity.
Qed.

Lemma gpr_set_gpr_other (r r' v : Z) (s : Machine) :
  r' <> r -> gpr (set_gpr r v s) r' = gpr s r'.
Proof. intros H. rewrite gpr_set_gpr. destruct (Z.eqb_spec r' r); [contradiction | reflexivity]. Qed.

Lemma gpr_set_gpr_same (r v : Z) (s : Machine) : gpr (set_gpr r v s) r = v.
Proof. rewrite gpr_set_gpr, Z.eqb_refl. reflexivity. Qed.

Lemma u8_small (k : Z) : 0 <= k < 256 -> u8 k = k.
Proof. intros H. unfold u8. apply Z.mod_small. change (2 ^ 8) with 256. exact H. Qed.

Lemma aligned_frame_size_nonneg (abi : ABI) (frameSize : Z) (noProlog : bool) :
  0 <= ABI_GetAlignedFrameSize abi frameSize noProlog.
Proof.
  destruct abi.
  - rewrite aligned_frame_size_win32. u32_arith.
  - rewrite aligned_frame_size_unix32. cbv zeta. apply u32_range.
  - destruct noProlog; cbv; congruence.
  - destruct noProlog; cbv; congruence.
Qed.

Lemma align_restore_machine (abi : ABI) (frameSize : Z) (noProlog : bool) (s : Machine) :
  0 <= frameSize <= ABI_GetAlignedFrameSize abi frameSize noProlog ->
  ABI_GetAlignedFrameSize abi frameSize noProlog < 0x80 ->
  ABI_GetAlignedFrameSize abi frameSize noProlog <= gpr s RSP < 2 ^ (8 * regSize abi) ->
  exists s1,
    exec (regSize abi) (align_code abi frameSize noProlog) s = Some s1 /\
    gpr s1 RSP = gpr s RSP - (ABI_GetAlignedFrameSize abi frameSize noProlog - frameSize) /\
    (forall r, r <> RSP -> gpr s1 r = gpr s r) /\
    xmm s1 = xmm s /\ mem s1 = mem s /\
    forall s2,
      gpr s2 RSP = gpr s1 RSP - frameSize ->
      exists s3,
        exec (regSize abi) (restore_code abi frameSize noProlog) s2 = Some s3 /\
        gpr s3 RSP = gpr s RSP /\
        (forall r, r <> RSP -> gpr s3 r = gpr s2 r) /\
        xmm s3 = xmm s2 /\ mem s3 = mem s2.
Proof.
  intros Hf Hsmall Hsp.
  unfold align_code, restore_code, fill_size. cbv zeta.
  set (aligned := ABI_GetAlignedFrameSize abi frameSize noProlog) in *.
  assert (Hfill : u32 (aligned - frameSize) = aligned - frameSize)
    by (apply u32_small; change (2 ^ 32) with 4294967296; lia).
  rewrite Hfill.
  assert (Hback : forall s1, gpr s1 RSP = gpr s RSP - (aligned - frameSize) ->
            forall s2, gpr s2 RSP = gpr s1 RSP - frameSize ->
            exists s3,
              exec (regSize abi)
                (if aligned =? 0 then [] else [iADD (ptr_bits abi) (R RSP) (Imm8 aligned)]) s2
              = Some s3 /\
              gpr s3 RSP = gpr s RSP /\
              (forall r, r <> RSP -> gpr s3 r = gpr s2 r) /\
              xmm s3 = xmm s2 /\ mem s3 = mem s2).
  { intros s1 Hs1 s2 Hs2. destruct (Z.eqb_spec aligned 0) as [Hz | Hnz].
    - exists s2. cbn [exec]. repeat split. lia.
    - exists (set_gpr RSP (gpr s2 RSP + aligned) s2). cbn [exec].
      unfold Imm8. rewrite u8_small by lia.
      rewrite (exec_add_imm8 (regSize abi)) by (try apply ptr_bits_regSize; lia).
      split; [reflexivity|]. split; [rewrite gpr_set_gpr_same; lia|].
      split; [intros r Hr; apply gpr_set_gpr_other; exact Hr|].
      split; reflexivity. }
  destruct (Z.eqb_spec (aligned - frameSize) 0) as [Hz | Hnz].
  - exists s. cbn [exec]. split; [reflexivity|]. split; [lia|].
    split; [reflexivity|]. split; [reflexivity|]. split; [reflexivity|].
    apply Hback. lia.
  - exists (set_gpr RSP (gpr s RSP - (aligned - frameSize)) s). cbn [exec].
    unfold Imm8. rewrite u8_small by lia.
    rewrite (exec_sub_imm8 (regSize abi)) by (try apply ptr_bits_regSize; lia).
    split; [reflexivity|]. split; [apply gpr_set_gpr_same|].
    split; [intros r Hr; apply gpr_set_gpr_other; exact Hr|].
    split; [reflexivity|]. split; [reflexivity|].
    apply Hback. apply gpr_set_gpr_same.
Qed.

(** X2: [ABI_AlignStack] and [ABI_RestoreStack] balance around a call.
    When the aligned size is at least the frame and below 0x80 (it is
    written as a sign-extended 8-bit immediate), the code of
    [ABI_AlignStack(frameSize, noProlog)] lowers the stack pointer by the
    padding only; once [frameSize] more bytes have been pushed, the code of
    [ABI_RestoreStack(frameSize, noProlog)] brings the stack pointer back
    to its value before the alignment.  Neither touches another register or
    the memory. *)
Theorem align_restore_balance (ilen : Instr -> Z) (abi : ABI) (frameSize : Z)
    (noProlog : bool) (c1 c2 : Z) (s : Machine) :
  0 <= frameSize <= ABI_GetAlignedFrameSize abi frameSize noProlog ->
  ABI_GetAlignedFrameSize abi frameSize noProlog < 0x80 ->
  ABI_GetAlignedFrameSize abi frameSize noProlog <= gpr s RSP < 2 ^ (8 * regSize abi) ->
  exists s1,
    exec (regSize abi) (emits (ABI_AlignStack ilen abi frameSize noProlog) c1) s = Some s1 /\
    gpr s1 RSP = gpr s RSP - (ABI_GetAlignedFrameSize abi frameSize noProlog - frameSize) /\
    (forall r, r <> RSP -> gpr s1 r = gpr s r) /\
    xmm s1 = xmm s /\ mem s1 = mem s /\
    forall s2,
      gpr s2 RSP = gpr s1 RSP - frameSize ->
      exists s3,
        exec (regSize abi) (emits (ABI_RestoreStack ilen abi frameSize noProlog) c2) s2
        = Some s3 /\
        gpr s3 RSP = gpr s RSP /\
        (forall r, r <> RSP -> gpr s3 r = gpr s2 r) /\
        xmm s3 = xmm s2 /\ mem s3 = mem s2.
Proof.
  intros Hf Hsmall Hsp.
  rewrite (emits_append ilen _ c1 (align_code abi frameSize noProlog))
    by (intros e; apply AlignStack_append).
  rewrite (emits_append ilen _ c2 (restore_code abi frameSize noProlog))
    by (intros e; apply RestoreStack_append).
  apply align_restore_machine; assumption.
Qed.

(** X2 on the 32-bit non-Windows build for the 8-byte frame of a
    two-argument call, from a stack pointer of 0x1000. *)
Lemma align_restore_balance_witness :
  0 <= 8 <= ABI_GetAlignedFrameSize Unix32 8 false /\
  ABI_GetAlignedFrameSize Unix32 8 false < 0x80 /\
  exists s1,
    exec 4 (emits (ABI_AlignStack (fun _ => 1) Unix32 8 false) 0)
      {| gpr := fun _ => 0x1000; xmm := fun _ => 0; mem := fun _ => 0 |} = Some s1 /\
    gpr s1 RSP = 0x1000 - (ABI_GetAlignedFrameSize Unix32 8 false - 8).
Proof.
  assert (H1 : 0 <= 8 <= ABI_GetAlignedFrameSize Unix32 8 false)
    by (vm_compute; split; discriminate).
  assert (H2 : ABI_GetAlignedFrameSize Unix32 8 false < 0x80) by reflexivity.
  split; [exact H1|]. split; [exact H2|].
  destruct (align_restore_balance (fun _ => 1) Unix32 8 false 0 0
              {| gpr := fun _ => 0x1000; xmm := fun _ => 0; mem := fun _ => 0 |} H1 H2)
    as (s1 & Hex & Hsp & _).
  { vm_compute. split; [discriminate | reflexivity]. }
  exists s1. split; [exact Hex | exact Hsp].
Defined.

(** * The 32-bit call-site builder *)

Section Call32Facts.

Variable ilen : Instr -> Z.

Lemma PUSHw_append (bits : Z) (arg : OpArg) (e : XEmitter) :
  PUSHw ilen bits arg e = append ilen e [iPUSHw bits arg].
Proof. reflexivity. Qed.

Lemma CALL_append (func : Z) (e : XEmitter) :
  CALL ilen func e = append ilen e [iCALL func].
Proof. reflexivity. Qed.

Lemma call_site32_append (abi : ABI) (func : Z) (cs : All32.CallSite) (e : XEmitter) :
  All32.emit_call_site ilen abi func cs e
  = append ilen e
      (align_code abi (frame_bytes32 cs) (site_noProlog32 cs)
       ++ arg_pushes32 cs ++ [iCALL func]
       ++ restore_code abi (frame_bytes32 cs) (site_noProlog32 cs)).
Proof.
  destruct cs;
    cbn [All32.emit_call_site arg_pushes32 site_noProlog32 frame_bytes32];
    unfold All32.ABI_CallFunction, All32.ABI_CallFunctionC16, All32.ABI_CallFunctionCC16,
      All32.ABI_CallFunctionC, All32.ABI_CallFunctionCC, All32.ABI_CallFunctionCCC,
      All32.ABI_CallFunctionCCP, All32.ABI_CallFunctionCCCP, All32.ABI_CallFunctionPPC,
      All32.ABI_CallFunctionR, All32.ABI_CallFunctionRR, All32.ABI_CallFunctionAC,
      All32.ABI_CallFunctionA, seq_emit;
    repeat (rewrite AlignStack_append || rewrite PUSHw_append || rewrite CALL_append
            || rewrite RestoreStack_append || rewrite append_append);
    rewrite <- ?app_assoc; cbn [app]; reflexivity.
Qed.

End Call32Facts.

Lemma frame32_balance (abi : ABI) (cs : All32.CallSite) :
  M_X64 abi = false ->
  fill_size abi (frame_bytes32 cs) (site_noProlog32 cs) + frame_bytes32 cs
  = ABI_GetAlignedFrameSize abi (frame_bytes32 cs) (site_noProlog32 cs) /\
  frame_bytes32 cs <= ABI_GetAlignedFrameSize abi (frame_bytes32 cs) (site_noProlog32 cs) <= 16.
Proof.
  intros H. destruct abi; try discriminate H;
    destruct cs; cbn [frame_bytes32 site_noProlog32];
    try destruct noProlog; vm_compute; repeat split; congruence.
Qed.

(** X3: every 32-bit call emitter writes the stack alignment for its frame
    size, its pushes, one call, and the stack release for the same frame
    size and prolog flag; the bytes its pushes take are exactly the frame
    size it announces, so the alignment padding and the pushes together
    are the amount the release adds back, which is at most 16. *)
Theorem call32_frame_bookkeeping (ilen : Instr -> Z) (abi : ABI) (func : Z)
    (cs : All32.CallSite) (c : Z) :
  M_X64 abi = false ->
  let frameSize := frame_bytes32 cs in
  let noProlog := site_noProlog32 cs in
  let pushes := arg_pushes32 cs in
  emits (All32.emit_call_site ilen abi func cs) c
  = emits (ABI_AlignStack ilen abi frameSize noProlog) c
    ++ pushes ++ [iCALL func]
    ++ emits (ABI_RestoreStack ilen abi frameSize noProlog) c /\
  fold_right Z.add 0 (map pushed_bytes pushes) = frameSize /\
  forallb (fun i => match i with iPUSHw _ _ => true | _ => false end) pushes = true /\
  u32 (ABI_GetAlignedFrameSize abi frameSize noProlog - frameSize) + frameSize
  = ABI_GetAlignedFrameSize abi frameSize noProlog /\
  frameSize <= ABI_GetAlignedFrameSize abi frameSize noProlog <= 16.
Proof.
  intros H32. cbv zeta.
  split.
  { rewrite (emits_append ilen (ABI_AlignStack ilen abi _ _) c _
               (fun e => AlignStack_append ilen abi _ _ e)).
    rewrite (emits_append ilen (ABI_RestoreStack ilen abi _ _) c _
               (fun e => RestoreStack_append ilen abi _ _ e)).
    unfold emits. rewrite call_site32_append. reflexivity. }
  split; [destruct cs; reflexivity|].
  split; [destruct cs; reflexivity|].
  exact (frame32_balance abi cs H32).
Qed.

(** X3 for [ABI_CallFunctionCC16(0x2000, 7, 9)] on the 32-bit non-Windows
    build: a 2-byte and a 4-byte push in a 6-byte frame. *)
Lemma call32_frame_bookkeeping_witness :
  M_X64 Unix32 = false /\
  emits (All32.emit_call_site (fun _ => 1) Unix32 0x2000 (All32.CallCC16 7 9)) 0x1000
  = [iSUB 32 (R RSP) (Imm 8 10); iPUSHw 16 (Imm 16 9); iPUSHw 32 (Imm 32 7);
     iCALL 0x2000; iADD 32 (R RSP) (Imm 8 16)].
Proof.
  split; [reflexivity|].
  exact (proj1 (call32_frame_bookkeeping (fun _ => 1) Unix32 0x2000 (All32.CallCC16 7 9)
                  0x1000 eq_refl)).
Defined.

Lemma u32_idem (x : Z) : u32 (u32 x) = u32 x.
Proof. apply u32_small, u32_range. Qed.

Lemma exec_push_imms (l : list Z) :
  forall s,
    4 * Z.of_nat (length l) <= gpr s RSP < 2 ^ 32 ->
    exists s',
      exec 4 (map (fun v => iPUSHw 32 (Imm 32 (u32 v))) l) s = Some s' /\
      gpr s' RSP = gpr s RSP - 4 * Z.of_nat (length l) /\
      (forall r, r <> RSP -> gpr s' r = gpr s r) /\
      xmm s' = xmm s /\
      (forall a, gpr s RSP <= a -> mem s' a = mem s a) /\
      forall i v, nth_error (rev l) i = Some v ->
                  load_bytes 4 (gpr s' RSP + 4 * Z.of_nat i) (mem s') = u32 v.
Proof.
  induction l as [| v l IH]; intros s Hsp.
  - exists s. cbn [map exec length]. repeat split; try lia.
    intros i v H. destruct i; discriminate H.
  - cbn [length] in Hsp. rewrite Nat2Z.inj_succ in Hsp.
    set (sa := set_mem (store_bytes 4 (gpr s RSP - 4) (u32 v mod 2 ^ 32) (mem s))
                       (set_gpr RSP (gpr s RSP - 4) s)).
    assert (Hsa : gpr sa RSP = gpr s RSP - 4) by (subst sa; cbn [set_mem gpr]; apply gpr_set_gpr_same).
    destruct (IH sa) as (s' & Hex & Hsp' & Hreg & Hxmm & Hmem & Hargs).
    { rewrite Hsa. lia. }
    exists s'. cbn [map exec]. rewrite exec_pushw_imm32 by lia. fold sa.
    split; [exact Hex|].
    split; [rewrite Hsp', Hsa; cbn [length]; lia|].
    split.
    { intros r Hr. rewrite Hreg by exact Hr. subst sa. cbn [set_mem gpr].
      apply gpr_set_gpr_other. exact Hr. }
    split; [rewrite Hxmm; reflexivity|].
    split.
    { intros a Ha. rewrite Hmem by (rewrite Hsa; lia). subst sa. cbn [set_mem mem].
      apply store_bytes_other. change (Z.of_nat 4) with 4. lia. }
    intros i w Hi. cbn [rev] in Hi.
    destruct (Nat.lt_ge_cases i (length (rev l))) as [Hlt | Hge].
    + rewrite nth_error_app1 in Hi by exact Hlt. apply Hargs. exact Hi.
    + rewrite nth_error_app2 in Hi by exact Hge.
      destruct (i - length (rev l))%nat as [| k] eqn:Ek; [| destruct k; discriminate Hi].
      cbn in Hi. injection Hi as <-.
      rewrite length_rev in Hge, Ek.
      assert (Hi' : i = length l) by lia. subst i.
      rewrite Hsp'. replace (gpr sa RSP - 4 * Z.of_nat (length l) + 4 * Z.of_nat (length l))
        with (gpr sa RSP) by lia.
      rewrite (load_bytes_ext 4 (gpr sa RSP) (mem s') (mem sa))
        by (intros x Hx; apply Hmem; lia).
      subst sa. cbn [set_mem mem gpr]. rewrite gpr_set_gpr_same.
      rewrite load_store_same. change (8 * Z.of_nat 4) with 32.
      rewrite Z.mod_mod by lia. apply u32_idem.
Qed.

Lemma imm_pushes32 (cs : All32.CallSite) (args : list Z) :
  imm_args32 cs = Some args ->
  arg_pushes32 cs = map (fun v => iPUSHw 32 (Imm 32 (u32 v))) (rev args) /\
  frame_bytes32 cs = 4 * Z.of_nat (length args) /\
  site_noProlog32 cs = false.
Proof.
  destruct cs; intros H; try discriminate H; injection H as <-;
    cbn [arg_pushes32 rev app map frame_bytes32 site_noProlog32 length];
    unfold Imm32; rewrite ?u32_idem; repeat split.
Qed.

Lemma aligned32_multiple (abi : ABI) (frameSize : Z) :
  M_X64 abi = false ->
  ABI_GetAlignedFrameSize abi frameSize false mod (if WIN32 abi then 4 else 16) = 0.
Proof.
  intros H. destruct abi; try discriminate H; cbn [WIN32].
  - rewrite aligned_frame_size_win32. u32_arith.
  - rewrite aligned_frame_size_unix32. cbv zeta.
    pose proof (u32_range (u32 (frameSize - 0) + 15)) as Hy.
    set (y := u32 (u32 (frameSize - 0) + 15)) in *. clearbody y. u32_arith.
Qed.

Lemma call32_arguments_machine (abi : ABI) (cs : All32.CallSite) (args : list Z)
    (s : Machine) :
  M_X64 abi = false ->
  imm_args32 cs = Some args ->
  16 <= gpr s RSP < 2 ^ 32 ->
  exists s1,
    exec 4 (align_code abi (frame_bytes32 cs) false ++ arg_pushes32 cs) s = Some s1 /\
    gpr s1 RSP = gpr s RSP - ABI_GetAlignedFrameSize abi (frame_bytes32 cs) false /\
    gpr s1 RSP mod (if WIN32 abi then 4 else 16)
    = gpr s RSP mod (if WIN32 abi then 4 else 16) /\
    (forall i v, nth_error args i = Some v ->
                 load_bytes 4 (gpr s1 RSP + 4 * Z.of_nat i) (mem s1) = u32 v) /\
    (forall r, r <> RSP -> gpr s1 r = gpr s r) /\
    (forall a, gpr s RSP <= a -> mem s1 a = mem s a) /\
    forall s2,
      gpr s2 RSP = gpr s1 RSP ->
      exists s3,
        exec 4 (restore_code abi (frame_bytes32 cs) false) s2 = Some s3 /\
        gpr s3 RSP = gpr s RSP /\
        (forall r, r <> RSP -> gpr s3 r = gpr s2 r) /\
        mem s3 = mem s2.
Proof.
  intros H32 Hargs Hsp.
  destruct (imm_pushes32 cs args Hargs) as (Hpush & Hframe & Hnp).
  destruct (frame32_balance abi cs H32) as (_ & Hle).
  rewrite Hnp in Hle.
  assert (Hw : regSize abi = 4) by (destruct abi; try discriminate H32; reflexivity).
  pose proof (aligned32_multiple abi (frame_bytes32 cs) H32) as Hmul.
  set (n := frame_bytes32 cs) in *.
  set (aligned := ABI_GetAlignedFrameSize abi n false) in *.
  assert (Hn : 0 <= n) by (rewrite Hframe; lia).
  destruct (align_restore_machine abi n false s) as (sa & Hexa & Hspa & Hrega & _ & Hmema & Hback).
  { fold aligned. lia. }
  { fold aligned. lia. }
  { fold aligned. rewrite Hw. change (2 ^ (8 * 4)) with (2 ^ 32). lia. }
  fold aligned in Hspa. rewrite Hw in Hexa, Hback.
  destruct (exec_push_imms (rev args) sa) as (s1 & Hex1 & Hsp1 & Hreg1 & _ & Hmem1 & Hload).
  { rewrite length_rev, <- Hframe. fold n. lia. }
  rewrite length_rev, <- Hframe in Hsp1. fold n in Hsp1.
  exists s1. split.
  { rewrite exec_app, Hexa, Hpush. exact Hex1. }
  assert (Hsp1' : gpr s1 RSP = gpr s RSP - aligned) by lia.
  split; [exact Hsp1'|]. split.
  { rewrite Hsp1'. generalize dependent aligned. intros aligned Hmul. intros.
    destruct (WIN32 abi); Z.div_mod_to_equations; lia. }
  split.
  { intros i v Hi. apply Hload. rewrite rev_involutive. exact Hi. }
  split; [intros r Hr; rewrite Hreg1, Hrega by exact Hr; reflexivity|].
  split.
  { intros a Ha. rewrite Hmem1 by lia. rewrite Hmema. reflexivity. }
  intros s2 Hs2. destruct (Hback s2) as (s3 & Hex3 & Hsp3 & Hreg3 & _ & Hmem3).
  { lia. }
  exists s3. repeat split; assumption.
Qed.

(** X4: the 32-bit call emitters that pass immediates only
    ([ABI_CallFunction], C, CC, CCC, CCP, CCCP and PPC) push their
    arguments so that, when the call is reached, argument number [i] in
    declaration order (counted from 0) is the 32-bit word at the stack
    pointer plus [4 * i]; the stack pointer has gone down by the aligned
    frame size, a multiple of 16 (of 4 on Windows), so its alignment is the
    one it had; nothing above the old stack pointer and no other register
    has changed; and the code after the call brings the stack pointer
    back. *)
Theorem call32_arguments_on_stack (ilen : Instr -> Z) (abi : ABI) (func : Z)
    (cs : All32.CallSite) (args : list Z) (c : Z) (s : Machine) :
  M_X64 abi = false ->
  imm_args32 cs = Some args ->
  16 <= gpr s RSP < 2 ^ 32 ->
  let frameSize := 4 * Z.of_nat (length args) in
  let pre := emits (ABI_AlignStack ilen abi frameSize false) c ++ arg_pushes32 cs in
  let post := emits (ABI_RestoreStack ilen abi frameSize false) c in
  emits (All32.emit_call_site ilen abi func cs) c = pre ++ [iCALL func] ++ post /\
  exists s1,
    exec 4 pre s = Some s1 /\
    gpr s1 RSP = gpr s RSP - ABI_GetAlignedFrameSize abi frameSize false /\
    gpr s1 RSP mod (if WIN32 abi then 4 else 16)
    = gpr s RSP mod (if WIN32 abi then 4 else 16) /\
    (forall i v, nth_error args i = Some v ->
                 load_bytes 4 (gpr s1 RSP + 4 * Z.of_nat i) (mem s1) = u32 v) /\
    (forall r, r <> RSP -> gpr s1 r = gpr s r) /\
    (forall a, gpr s RSP <= a -> mem s1 a = mem s a) /\
    forall s2,
      gpr s2 RSP = gpr s1 RSP ->
      exists s3,
        exec 4 post s2 = Some s3 /\
        gpr s3 RSP = gpr s RSP /\
        (forall r, r <> RSP -> gpr s3 r = gpr s2 r) /\
        mem s3 = mem s2.
Proof.
  intros H32 Hargs Hsp. cbv zeta.
  destruct (imm_pushes32 cs args Hargs) as (_ & Hframe & Hnp).
  rewrite <- Hframe.
  rewrite (emits_append ilen (ABI_AlignStack ilen abi _ _) c _
             (fun e => AlignStack_append ilen abi _ _ e)).
  rewrite (emits_append ilen (ABI_RestoreStack ilen abi _ _) c _
             (fun e => RestoreStack_append ilen abi _ _ e)).
  split.
  - unfold emits. rewrite call_site32_append, Hnp. cbn [emitted append app].
    rewrite <- app_assoc. reflexivity.
  - apply call32_arguments_machine; assumption.
Qed.

(** X4 for [ABI_CallFunctionCCC(0x2000, 1, 2, 3)] on the 32-bit
    non-Windows build, from a stack pointer of 0x1000. *)
Lemma call32_arguments_on_stack_witness :
  M_X64 Unix32 = false /\
  imm_args32 (All32.CallCCC 1 2 3) = Some [1; 2; 3] /\
  16 <= 0x1000 < 2 ^ 32 /\
  emits (All32.emit_call_site (fun _ => 1) Unix32 0x2000 (All32.CallCCC 1 2 3)) 0
  = [iSUB 32 (R RSP) (Imm 8 4); iPUSHw 32 (Imm 32 3); iPUSHw 32 (Imm 32 2);
     iPUSHw 32 (Imm 32 1); iCALL 0x2000; iADD 32 (R RSP) (Imm 8 16)].
Proof.
  split; [reflexivity|]. split; [reflexivity|]. split; [lia|].
  exact (proj1 (call32_arguments_on_stack (fun _ => 1) Unix32 0x2000 (All32.CallCCC 1 2 3)
                  [1; 2; 3] 0
                  {| gpr := fun _ => 0x1000; xmm := fun _ => 0; mem := fun _ => 0 |}
                  eq_refl eq_refl ltac:(cbn [gpr]; lia))).
Defined.

(** * The 64-bit call-site builder: immediate arguments *)

Lemma u32_u16 (x : Z) : u32 (u16 x) = u16 x.
Proof.
  apply u32_small. unfold u16. pose proof (Z.mod_pos_bound x (2 ^ 16) ltac:(lia)).
  change (2 ^ 16) with 65536 in *. change (2 ^ 32) with 4294967296. lia.
Qed.

Lemma imm_site_no_prolog (abi : ABI) (cs : All64.CallSite) (regs : list (Z * Z)) :
  M_X64 abi = true -> imm_args64 abi cs = Some regs ->
  call_prolog abi cs = arg_moves abi cs /\ restore_code abi 0 (site_noProlog cs) = [].
Proof.
  intros H64 H. unfold call_prolog.
  assert (Hnp : site_noProlog cs = false) by (destruct cs; try discriminate H; reflexivity).
  rewrite Hnp. destruct (align_restore_x64_frame_0 abi H64) as [-> ->]. split; reflexivity.
Qed.

Ltac run_moves :=
  cbn [arg_moves exec app]; cbv zeta; unfold Imm32, Imm64;
  repeat (rewrite exec_mov32_imm || rewrite exec_mov64_imm);
  rewrite ?u32_idem, ?u32_u16, ?u64_idem.

Lemma call64_immediates_machine (abi : ABI) (func : Z) (cs : All64.CallSite)
    (regs : list (Z * Z)) (s : Machine) :
  M_X64 abi = true ->
  imm_args64 abi cs = Some regs ->
  exists s1,
    exec 8 (arg_moves abi cs) s = Some s1 /\
    (forall r v, In (r, v) regs -> gpr s1 r = v /\ r <> RAX /\ r <> RSP) /\
    (forall r, (forall v, ~ In (r, v) regs) -> gpr s1 r = gpr s r) /\
    xmm s1 = xmm s /\ mem s1 = mem s.
Proof.
  intros H64 Hregs.
  destruct abi; try discriminate H64;
    destruct cs; try discriminate Hregs; injection Hregs as <-;
    eexists; (split; [run_moves; reflexivity|]);
    (split; [| split; [| split; reflexivity]]);
    try (intros r v Hin; cbn [In] in Hin;
         repeat match goal with
                | H : _ \/ _ |- _ => destruct H
                | H : False |- _ => destruct H
                | H : (_, _) = (_, _) |- _ => injection H as <- <-
                end;
         (split; [reflexivity | split; discriminate]));
    try (intros r Hnot; rewrite ?gpr_set_gpr;
         repeat match goal with
                | |- context [r =? ?p] =>
                    destruct (Z.eqb_spec r p);
                    [exfalso; subst r; eapply Hnot; cbn [In]; eauto 6 |]
                end; reflexivity).
Qed.

(** X5: the 64-bit call emitters that pass immediates only
    ([ABI_CallFunction], C16, CC16, C, CC, CCC, CCP, CCCP and PPC) neither
    align nor release the stack; their moves leave each argument in its
    argument register (16- and 32-bit arguments zero-extended, pointers in
    full), write no other register and no memory; and the load of the
    target into RAX on the far path leaves the arguments in place. *)
Theorem call64_immediates_delivered (ilen : Instr -> Z) (abi : ABI) (func : Z)
    (cs : All64.CallSite) (regs : list (Z * Z)) (c : Z) (s : Machine) :
  M_X64 abi = true ->
  imm_args64 abi cs = Some regs ->
  let moves := arg_moves abi cs in
  emits (All64.emit_call_site ilen abi func cs) c
  = moves ++ (if fits_rel32 func (advance ilen c moves) then [iCALL func]
              else [iMOV 64 (R RAX) (Imm 64 (u64 func)); iCALLptr (R RAX)]) /\
  existsb is_call moves = false /\
  exists s1,
    exec 8 moves s = Some s1 /\
    (forall r v, In (r, v) regs -> gpr s1 r = v) /\
    (forall r, (forall v, ~ In (r, v) regs) -> gpr s1 r = gpr s r) /\
    xmm s1 = xmm s /\ mem s1 = mem s /\
    exec 8 (moves ++ [iMOV 64 (R RAX) (Imm 64 (u64 func))]) s
    = Some (set_gpr RAX (u64 func) s1) /\
    (forall r v, In (r, v) regs -> gpr (set_gpr RAX (u64 func) s1) r = v).
Proof.
  intros H64 Hregs. cbv zeta.
  destruct (imm_site_no_prolog abi cs regs H64 Hregs) as [Hpro Hres].
  destruct (call64_immediates_machine abi func cs regs s H64 Hregs)
    as (s1 & Hex & Hin & Hout & Hxmm & Hmem).
  split.
  { unfold emits. rewrite call_site_append. cbn [code emitted app].
    rewrite Hpro, Hres, app_nil_r. reflexivity. }
  split; [rewrite <- Hpro; apply no_call_in_prolog|].
  exists s1.
  split; [exact Hex|].
  split; [intros r v H; apply (Hin r v H)|].
  split; [exact Hout|]. split; [exact Hxmm|]. split; [exact Hmem|].
  split.
  { rewrite exec_app, Hex. cbn [exec]. rewrite exec_mov64_imm. reflexivity. }
  intros r v H. destruct (Hin r v H) as (Hv & Hrax & _).
  rewrite gpr_set_gpr_other by exact Hrax. exact Hv.
Qed.

(** X5 for [ABI_CallFunctionCCP(0x2000, 1, 2, 0x123456789)] on Win64. *)
Lemma call64_immediates_delivered_witness :
  M_X64 Win64 = true /\
  imm_args64 Win64 (All64.CallCCP 1 2 0x123456789)
  = Some [(RCX, 1); (RDX, 2); (R8, 0x123456789)] /\
  emits (All64.emit_call_site (fun _ => 1) Win64 0x2000 (All64.CallCCP 1 2 0x123456789))
    0x1000
  = [iMOV 32 (R RCX) (Imm 32 1); iMOV 32 (R RDX) (Imm 32 2);
     iMOV 64 (R R8) (Imm 64 0x123456789); iCALL 0x2000].
Proof.
  split; [reflexivity|]. split; [reflexivity|].
  exact (proj1 (call64_immediates_delivered (fun _ => 1) Win64 0x2000
                  (All64.CallCCP 1 2 0x123456789) [(RCX, 1); (RDX, 2); (R8, 0x123456789)]
                  0x1000 {| gpr := fun _ => 0; xmm := fun _ => 0; mem := fun _ => 0 |}
                  eq_refl eq_refl)).
Defined.

(** * The callee-saved frame builder *)

Section CalleeSavedFacts.

Variable ilen : Instr -> Z.

Lemma PUSH_append (r : Z) (e : XEmitter) : PUSH ilen r e = append ilen e [iPUSH r].
Proof. reflexivity. Qed.

Lemma POP_append (r : Z) (e : XEmitter) : POP ilen r e = append ilen e [iPOP r].
Proof. reflexivity. Qed.

Lemma SUB_append (bits : Z) (a b : OpArg) (e : XEmitter) :
  SUB ilen bits a b e = append ilen e [iSUB bits a b].
Proof. reflexivity. Qed.

Lemma ADD_append (bits : Z) (a b : OpArg) (e : XEmitter) :
  ADD ilen bits a b e = append ilen e [iADD bits a b].
Proof. reflexivity. Qed.

Lemma PushAll_append (abi : ABI) (e : XEmitter) :
  ABI_PushAllCalleeSavedRegsAndAdjustStack ilen abi e = append ilen e (frame_push_code abi).
Proof.
  destruct abi; cbn [ABI_PushAllCalleeSavedRegsAndAdjustStack M_IX86 M_X64 WIN32 negb];
    unfold seq_emit;
    repeat (rewrite PUSH_append || rewrite (MOV_append ilen) || rewrite SUB_append
            || rewrite append_append);
    reflexivity.
Qed.

Lemma PopAll_append (abi : ABI) (e : XEmitter) :
  ABI_PopAllCalleeSavedRegsAndAdjustStack ilen abi e = append ilen e (frame_pop_code abi).
Proof.
  destruct abi; cbn [ABI_PopAllCalleeSavedRegsAndAdjustStack M_IX86 M_X64 WIN32 negb];
    unfold seq_emit;
    repeat (rewrite POP_append || rewrite ADD_append || rewrite append_append);
    reflexivity.
Qed.

End CalleeSavedFacts.

Lemma exec_pops_frame (w : Z) (l : list Z) :
  forall s s', exec w (map iPOP l) s = Some s' ->
               forall r, r <> RSP -> ~ In r l -> gpr s' r = gpr s r.
Proof.
  induction l as [| p l IH]; intros s s' Hex r Hr Hnin.
  - cbn in Hex. injection Hex as <-. reflexivity.
  - cbn [map exec exec_instr] in Hex. rewrite (IH _ _ Hex r Hr).
    + rewrite !gpr_set_gpr.
      destruct (Z.eqb_spec r p) as [-> | _]; [exfalso; apply Hnin; left; reflexivity|].
      destruct (Z.eqb_spec r RSP); [contradiction | reflexivity].
    + intros H. apply Hnin. right. exact H.
Qed.

Lemma exec_mov_frame_pointer (abi : ABI) (s : Machine) :
  0 <= gpr s RSP < 2 ^ (8 * regSize abi) ->
  exec_instr (regSize abi) (iMOV (ptr_bits abi) (R RBP) (R RSP)) s
  = Some (set_gpr RBP (gpr s RSP) s).
Proof.
  intros H. destruct abi; cbn [exec_instr mov_source regSize ptr_bits M_X64] in *;
    match goal with
    | |- context [if ?b then _ else _] => change b with true
    end; cbv iota; rewrite Z.mod_small by exact H; reflexivity.
Qed.

Lemma callee_saved_facts (abi : ABI) :
  ~ In RSP (callee_saved abi) /\ ~ In RBP (callee_saved abi) /\
  0 <= frame_reserve abi < 128 /\ 0 < regSize abi.
Proof.
  destruct abi; cbv; repeat split; try congruence; intuition discriminate.
Qed.

Lemma callee_frame_machine (abi : ABI) (s : Machine) :
  wf_machine (regSize abi) s ->
  regSize abi * (1 + Z.of_nat (length (callee_saved abi))) + frame_reserve abi
  <= gpr s RSP ->
  exists s1,
    exec (regSize abi) (frame_push_code abi) s = Some s1 /\
    gpr s1 RSP = gpr s RSP - (regSize abi * (1 + Z.of_nat (length (callee_saved abi)))
                              + frame_reserve abi) /\
    gpr s1 RBP = gpr s RSP - regSize abi /\
    (forall r, r <> RSP -> r <> RBP -> gpr s1 r = gpr s r) /\
    xmm s1 = xmm s /\
    (forall a, gpr s RSP <= a -> mem s1 a = mem s a) /\
    forall s2,
      gpr s2 RSP = gpr s1 RSP ->
      (forall a, gpr s1 RSP <= a < gpr s RSP -> mem s2 a = mem s1 a) ->
      exists s3,
        exec (regSize abi) (frame_pop_code abi) s2 = Some s3 /\
        gpr s3 RSP = gpr s RSP /\
        gpr s3 RBP = gpr s RBP /\
        (forall r, In r (callee_saved abi) -> gpr s3 r = gpr s r) /\
        (forall r, r <> RSP -> r <> RBP -> ~ In r (callee_saved abi) ->
                   gpr s3 r = gpr s2 r) /\
        xmm s3 = xmm s2 /\ mem s3 = mem s2.
Proof.
  intros [Hwg Hwx] Hroom.
  destruct (callee_saved_facts abi) as (HnoSP & HnoBP & Hk & Hw).
  set (w := regSize abi) in *. set (l := callee_saved abi) in *.
  set (k := frame_reserve abi) in *. set (n := Z.of_nat (length l)) in *.
  assert (Hn : 0 <= n) by (subst n; lia).
  assert (Hwn : 0 <= w * n) by nia.
  pose proof (Hwg RSP) as Hsp.
  unfold frame_push_code, frame_pop_code. fold l k.
  (* the frame pointer *)
  destruct (gp_round_trip w [RBP] Hw s Hwg) as (sa & Hexa & Hspa & Hrega & Hxa & Hma & Hpop_bp).
  { cbn [length]. lia. }
  cbn [length] in Hspa. change (Z.of_nat 1) with 1 in Hspa.
  set (sb := set_gpr RBP (gpr sa RSP) sa).
  assert (Hexb : exec_instr w (iMOV (ptr_bits abi) (R RBP) (R RSP)) sa = Some sb).
  { apply exec_mov_frame_pointer. fold w. lia. }
  assert (Hspb : gpr sb RSP = gpr s RSP - w).
  { subst sb. rewrite gpr_set_gpr_other by discriminate. lia. }
  assert (Hwfb : forall r, 0 <= gpr sb r < 2 ^ (8 * w)).
  { intros r. subst sb. rewrite gpr_set_gpr.
    destruct (Z.eqb_spec r RBP); [lia|].
    destruct (Z.eq_dec r RSP) as [-> | Hr]; [lia|]. rewrite Hrega by exact Hr. apply Hwg. }
  (* the callee-saved registers *)
  destruct (gp_round_trip w l Hw sb Hwfb) as (sc & Hexc & Hspc & Hregc & Hxc & Hmc & Hpop_l).
  { fold n. lia. }
  fold n in Hspc.
  set (s1 := set_gpr RSP (gpr sc RSP - k) sc).
  assert (Hex1 : exec_instr w (iSUB (ptr_bits abi) (R RSP) (Imm 8 k)) sc = Some s1).
  { apply exec_sub_imm8; [apply ptr_bits_regSize | exact Hk | lia]. }
  exists s1. split.
  { change ([iPUSH RBP; iMOV (ptr_bits abi) (R RBP) (R RSP)] ++ map iPUSH l
            ++ [iSUB (ptr_bits abi) (R RSP) (Imm 8 k)])
      with (map iPUSH [RBP] ++ [iMOV (ptr_bits abi) (R RBP) (R RSP)] ++ map iPUSH l
            ++ [iSUB (ptr_bits abi) (R RSP) (Imm 8 k)]).
    rewrite exec_app, Hexa. cbn [app exec]. rewrite Hexb.
    rewrite exec_app, Hexc. cbn [exec]. rewrite Hex1. reflexivity. }
  assert (Hsp1 : gpr s1 RSP = gpr s RSP - (w * (1 + n) + k)).
  { subst s1. rewrite gpr_set_gpr_same. lia. }
  split; [exact Hsp1|].
  split.
  { subst s1. rewrite gpr_set_gpr_other by discriminate.
    rewrite Hregc by discriminate. subst sb. rewrite gpr_set_gpr_same. lia. }
  split.
  { intros r Hr Hb. subst s1. rewrite gpr_set_gpr_other by exact Hr.
    rewrite Hregc by exact Hr. subst sb. rewrite gpr_set_gpr_other by exact Hb.
    apply Hrega. exact Hr. }
  split; [subst s1 sb; cbn [set_gpr xmm] in *; rewrite Hxc; exact Hxa|].
  split.
  { intros a Ha. subst s1. cbn [set_gpr mem]. rewrite Hmc by lia.
    subst sb. cbn [set_gpr mem]. apply Hma. exact Ha. }
  intros s2 Hsp2 Hagree.
  set (s2' := set_gpr RSP (gpr s2 RSP + k) s2).
  assert (Hex2 : exec_instr w (iADD (ptr_bits abi) (R RSP) (Imm 8 k)) s2 = Some s2').
  { apply exec_add_imm8; [apply ptr_bits_regSize | exact Hk | lia | lia]. }
  destruct (Hpop_l s2') as (s3' & Hex3' & Hsp3' & Hreg3' & Hx3' & Hm3').
  { subst s2'. rewrite gpr_set_gpr_same. lia. }
  { intros a Ha. subst s2'. cbn [set_gpr mem]. rewrite Hagree by lia.
    subst s1. reflexivity. }
  destruct (Hpop_bp s3') as (s3 & Hex3 & Hsp3 & Hreg3 & Hx3 & Hm3).
  { rewrite Hsp3', Hspb. lia. }
  { intros a Ha. rewrite Hm3'. subst s2'. cbn [set_gpr mem]. rewrite Hagree by lia.
    subst s1. cbn [set_gpr mem]. rewrite Hmc by lia. subst sb. reflexivity. }
  exists s3. split.
  { cbn [app exec]. rewrite Hex2. rewrite exec_app, Hex3'. exact Hex3. }
  split; [exact Hsp3|].
  split; [apply Hreg3; left; reflexivity|].
  assert (Hkeep : forall r, r <> RSP -> r <> RBP -> gpr s3 r = gpr s3' r).
  { intros r Hr Hb. apply (exec_pops_frame w (rev [RBP]) s3' s3 Hex3 r Hr).
    cbn. intros [H | []]. apply Hb. symmetry. exact H. }
  split.
  { intros r Hin.
    assert (Hr : r <> RSP) by (intros ->; contradiction).
    assert (Hb : r <> RBP) by (intros ->; contradiction).
    rewrite Hkeep by assumption. rewrite Hreg3' by exact Hin.
    subst sb. rewrite gpr_set_gpr_other by exact Hb. apply Hrega. exact Hr. }
  split.
  { intros r Hr Hb Hnin. rewrite Hkeep by assumption.
    rewrite (exec_pops_frame w (rev l) s2' s3' Hex3' r Hr)
      by (rewrite <- in_rev; exact Hnin).
    subst s2'. apply gpr_set_gpr_other. exact Hr. }
  split; [rewrite Hx3, Hx3'; reflexivity|].
  rewrite Hm3, Hm3'. reflexivity.
Qed.

(** X6: the callee-saved frame round trip, on the three builds.
    [ABI_PushAllCalleeSavedRegsAndAdjustStack] pushes the frame pointer,
    sets it, pushes the build's callee-saved registers (EBX, ESI, EDI; on
    Win64 RBX, RSI, RDI, R12-R15; on Unix64 RBX, R12-R15) and reserves 0xc,
    0x28 or 8 bytes.  Whatever then happens to the registers other than the
    stack pointer and to the memory outside the frame,
    [ABI_PopAllCalleeSavedRegsAndAdjustStack] brings the stack pointer, the
    frame pointer and every callee-saved register back to their values
    before the push, and changes no other register and no memory. *)
Theorem callee_saved_frame_round_trip (ilen : Instr -> Z) (abi : ABI) (c1 c2 : Z)
    (s : Machine) :
  wf_machine (regSize abi) s ->
  regSize abi * (1 + Z.of_nat (length (callee_saved abi))) + frame_reserve abi
  <= gpr s RSP ->
  let push := emits (ABI_PushAllCalleeSavedRegsAndAdjustStack ilen abi) c1 in
  let pop := emits (ABI_PopAllCalleeSavedRegsAndAdjustStack ilen abi) c2 in
  push = [iPUSH RBP; iMOV (ptr_bits abi) (R RBP) (R RSP)]
         ++ map iPUSH (callee_saved abi)
         ++ [iSUB (ptr_bits abi) (R RSP) (Imm 8 (frame_reserve abi))] /\
  pop = [iADD (ptr_bits abi) (R RSP) (Imm 8 (frame_reserve abi))]
        ++ map iPOP (rev (callee_saved abi)) ++ [iPOP RBP] /\
  exists s1,
    exec (regSize abi) push s = Some s1 /\
    gpr s1 RSP = gpr s RSP - (regSize abi * (1 + Z.of_nat (length (callee_saved abi)))
                              + frame_reserve abi) /\
    forall s2,
      gpr s2 RSP = gpr s1 RSP ->
      (forall a, gpr s1 RSP <= a < gpr s RSP -> mem s2 a = mem s1 a) ->
      exists s3,
        exec (regSize abi) pop s2 = Some s3 /\
        gpr s3 RSP = gpr s RSP /\
        gpr s3 RBP = gpr s RBP /\
        (forall r, In r (callee_saved abi) -> gpr s3 r = gpr s r) /\
        (forall r, r <> RSP -> r <> RBP -> ~ In r (callee_saved abi) ->
                   gpr s3 r = gpr s2 r) /\
        xmm s3 = xmm s2 /\ mem s3 = mem s2.
Proof.
  intros Hwf Hroom. cbv zeta.
  rewrite (emits_append ilen _ c1 (frame_push_code abi) (PushAll_append ilen abi)).
  rewrite (emits_append ilen _ c2 (frame_pop_code abi) (PopAll_append ilen abi)).
  split; [reflexivity|]. split; [reflexivity|].
  destruct (callee_frame_machine abi s Hwf Hroom)
    as (s1 & Hex & Hsp & _ & _ & _ & _ & Hback).
  exists s1. split; [exact Hex|]. split; [exact Hsp|]. exact Hback.
Qed.

(** X6 on the Unix64 build, from a stack pointer of 0x7ff8. *)
Lemma callee_saved_frame_round_trip_witness :
  wf_machine 8 {| gpr := fun r => if r =? RSP then 0x7ff8 else 7;
                  xmm := fun _ => 5; mem := fun _ => 0 |} /\
  8 * (1 + Z.of_nat (length (callee_saved Unix64))) + frame_reserve Unix64 <= 0x7ff8 /\
  emits (ABI_PushAllCalleeSavedRegsAndAdjustStack (fun _ => 1) Unix64) 0
  = [iPUSH RBP; iMOV 64 (R RBP) (R RSP); iPUSH RBX; iPUSH R12; iPUSH R13; iPUSH R14;
     iPUSH R15; iSUB 64 (R RSP) (Imm 8 8)] /\
  emits (ABI_PopAllCalleeSavedRegsAndAdjustStack (fun _ => 1) Unix64) 0
  = [iADD 64 (R RSP) (Imm 8 8); iPOP R15; iPOP R14; iPOP R13; iPOP R12; iPOP RBX;
     iPOP RBP].
Proof.
  assert (Hwf : wf_machine 8 {| gpr := fun r => if r =? RSP then 0x7ff8 else 7;
                                xmm := fun _ => 5; mem := fun _ => 0 |}).
  { split; intros r; cbn [gpr xmm].
    - change (2 ^ (8 * 8)) with 18446744073709551616. destruct (r =? RSP); lia.
    - change (2 ^ 128) with 340282366920938463463374607431768211456. lia. }
  assert (Hroom : 8 * (1 + Z.of_nat (length (callee_saved Unix64))) + frame_reserve Unix64
                  <= 0x7ff8) by (vm_compute; discriminate).
  split; [exact Hwf|]. split; [exact Hroom|].
  destruct (callee_saved_frame_round_trip (fun _ => 1) Unix64 0 0 _ Hwf Hroom)
    as (Hpush & Hpop & _).
  split; [exact Hpush | exact Hpop].
Defined.

(** X7: the frame the push builds.  Entered with the return address just
    pushed (stack pointer plus one slot a multiple of 16),
    [ABI_PushAllCalleeSavedRegsAndAdjustStack] leaves the stack pointer a
    multiple of 16, the frame pointer one slot below the entry stack
    pointer (at the saved frame pointer), every register other than the
    stack and frame pointers unchanged, and the memory at and above the
    entry stack pointer unchanged. *)
Theorem callee_saved_frame_entry (ilen : Instr -> Z) (abi : ABI) (c : Z) (s : Machine) :
  wf_machine (regSize abi) s ->
  regSize abi * (1 + Z.of_nat (length (callee_saved abi))) + frame_reserve abi
  <= gpr s RSP ->
  (gpr s RSP + regSize abi) mod 16 = 0 ->
  exists s1,
    exec (regSize abi) (emits (ABI_PushAllCalleeSavedRegsAndAdjustStack ilen abi) c) s
    = Some s1 /\
    gpr s1 RSP mod 16 = 0 /\
    gpr s1 RBP = gpr s RSP - regSize abi /\
    (forall r, r <> RSP -> r <> RBP -> gpr s1 r = gpr s r) /\
    xmm s1 = xmm s /\
    (forall a, gpr s RSP <= a -> mem s1 a = mem s a).
Proof.
  intros Hwf Hroom Hal.
  rewrite (emits_append ilen _ c (frame_push_code abi) (PushAll_append ilen abi)).
  destruct (callee_frame_machine abi s Hwf Hroom)
    as (s1 & Hex & Hsp & Hbp & Hreg & Hxmm & Hmem & _).
  exists s1. split; [exact Hex|]. split.
  { rewrite Hsp. revert Hal. generalize (gpr s RSP). intros sp.
    destruct abi; cbn [regSize callee_saved frame_reserve M_IX86 M_X64 WIN32 negb length];
      intros Hal; Z.div_mod_to_equations; lia. }
  split; [exact Hbp|]. split; [exact Hreg|]. split; [exact Hxmm | exact Hmem].
Qed.

(** X7 on the Win64 build, entered at a stack pointer of 0x7ff8. *)
Lemma callee_saved_frame_entry_witness :
  wf_machine 8 {| gpr := fun r => if r =? RSP then 0x7ff8 else 7;
                  xmm := fun _ => 5; mem := fun _ => 0 |} /\
  8 * (1 + Z.of_nat (length (callee_saved Win64))) + frame_reserve Win64 <= 0x7ff8 /\
  (0x7ff8 + 8) mod 16 = 0 /\
  exists s1,
    exec 8 (emits (ABI_PushAllCalleeSavedRegsAndAdjustStack (fun _ => 1) Win64) 0)
      {| gpr := fun r => if r =? RSP then 0x7ff8 else 7;
         xmm := fun _ => 5; mem := fun _ => 0 |} = Some s1 /\
    gpr s1 RSP mod 16 = 0 /\ gpr s1 RBP = 0x7ff8 - 8.
Proof.
  assert (Hwf : wf_machine 8 {| gpr := fun r => if r =? RSP then 0x7ff8 else 7;
                                xmm := fun _ => 5; mem := fun _ => 0 |}).
  { split; intros r; cbn [gpr xmm].
    - change (2 ^ (8 * 8)) with 18446744073709551616. destruct (r =? RSP); lia.
    - change (2 ^ 128) with 340282366920938463463374607431768211456. lia. }
  assert (Hroom : 8 * (1 + Z.of_nat (length (callee_saved Win64))) + frame_reserve Win64
                  <= 0x7ff8) by (vm_compute; discriminate).
  assert (Hal : (0x7ff8 + 8) mod 16 = 0) by reflexivity.
  split; [exact Hwf|]. split; [exact Hroom|]. split; [exact Hal|].
  destruct (callee_saved_frame_entry (fun _ => 1) Win64 0 _ Hwf Hroom Hal)
    as (s1 & Hex & Hmod & Hbp & _).
  exists s1. split; [exact Hex|]. split; [exact Hmod | exact Hbp].
Defined.

(** * What save and restore leave alone *)

Lemma exec_pushes_below (w : Z) (l : list Z) :
  0 < w ->
  forall s s1,
    w * Z.of_nat (length l) <= gpr s RSP < 2 ^ (8 * w) ->
    exec w (map iPUSH l) s = Some s1 ->
    forall a, a < gpr s RSP - w * Z.of_nat (length l) -> mem s1 a = mem s a.
Proof.
  intros Hw. induction l as [| r l IH]; intros s s1 Hsp Hex a Ha.
  - cbn in Hex. injection Hex as <-. reflexivity.
  - cbn [length] in Hsp, Ha. rewrite Nat2Z.inj_succ in Hsp, Ha.
    cbn [map exec exec_instr] in Hex.
    rewrite wrap_small in Hex by lia.
    assert (Hn : 0 <= w * Z.of_nat (length l)) by nia.
    set (sa := set_mem (store_bytes (Z.to_nat w) (gpr s RSP - w) (gpr s r) (mem s))
                       (set_gpr RSP (gpr s RSP - w) s)) in *.
    assert (Hsa : gpr sa RSP = gpr s RSP - w)
      by (subst sa; cbn [set_mem gpr]; apply gpr_set_gpr_same).
    assert (Hsp' : w * Z.of_nat (length l) <= gpr sa RSP < 2 ^ (8 * w))
      by (rewrite Hsa; lia).
    rewrite (IH sa s1 Hsp' Hex a) by (rewrite Hsa; lia).
    subst sa. cbn [set_mem mem]. apply store_bytes_other. rewrite Z2Nat.id by lia. lia.
Qed.

Lemma in_selected (p : Z -> bool) (r : Z) :
  In r (filter p reg_numbers) <-> 0 <= r < 16 /\ p r = true.
Proof.
  rewrite filter_In. split.
  - intros [Hin Hp]. split; [| exact Hp].
    unfold reg_numbers in Hin. apply in_map_iff in Hin. destruct Hin as (k & <- & Hk).
    apply in_seq in Hk. lia.
  - intros [Hr Hp]. split; [apply in_reg_numbers; exact Hr | exact Hp].
Qed.

Lemma save_frame_machine (abi : ABI) (mask : Z) (noProlog : bool) (s : Machine) :
  wf_machine (regSize abi) s ->
  regSize abi * Z.of_nat (length (gp_selected mask)) + adjust_size abi mask noProlog
  <= gpr s RSP ->
  (gpr s RSP + (if noProlog then regSize abi else 0)) mod 16 = 0 ->
  exists s1,
    exec (regSize abi) (push_code abi mask noProlog) s = Some s1 /\
    gpr s1 RSP mod 16 = 0 /\
    (forall r, r <> RSP -> gpr s1 r = gpr s r) /\
    xmm s1 = xmm s /\
    (forall a, gpr s RSP <= a -> mem s1 a = mem s a) /\
    (forall a, a < gpr s1 RSP + shadow_space abi -> mem s1 a = mem s a).
Proof.
  intros [Hwg Hwx] Hroom Hal.
  pose proof (adjust_size_range abi mask noProlog) as Hr.
  pose proof (adjust_size_covers abi mask noProlog) as Hc.
  pose proof (shadow_space_nonneg abi) as Hsh.
  pose proof (adjust_size_aligns abi mask noProlog (gpr s RSP) Hal) as Hal'.
  pose proof (Hwg RSP) as Hsp.
  set (w := regSize abi) in *.
  assert (Hw : 0 < w) by (subst w; destruct (regSize_cases abi); lia).
  set (n := Z.of_nat (length (gp_selected mask))) in *.
  set (size := adjust_size abi mask noProlog) in *.
  assert (Hn : 0 <= w * n) by (subst n; nia).
  destruct (gp_round_trip w (gp_selected mask) Hw s Hwg ltac:(fold n; lia))
    as (sa & Hexa & Hspa & Hrega & Hxa & Hma & _).
  fold n in Hspa.
  pose proof (exec_pushes_below w (gp_selected mask) Hw s sa ltac:(fold n; lia) Hexa) as Hlow.
  fold n in Hlow.
  destruct (exec_adjust_sub abi mask noProlog sa ltac:(fold size w; lia))
    as (sb & Hexb & Hspb & Hregb & Hxb & Hmb).
  fold size w in Hexb, Hspb.
  destruct (vec_round_trip w (vec_selected mask) (shadow_space abi) sb)
    as (s1 & Hex1 & Hg1 & Hx1 & Hm1 & _).
  { lia. }
  { lia. }
  { right. rewrite Hspb, Hspa. exact Hal'. }
  { intros x. rewrite Hxb, Hxa. apply Hwx. }
  exists s1. split.
  { unfold push_code. rewrite exec_app, Hexa. cbv beta iota.
    rewrite exec_app, Hexb. exact Hex1. }
  assert (Hsp1 : gpr s1 RSP = gpr s RSP - w * n - size) by (rewrite Hg1; lia).
  split.
  { rewrite Hsp1. revert Hal'. generalize (gpr s RSP - w * n - size). intros z Hz.
    assert (Hs : shadow_space abi = 0 \/ shadow_space abi = 32)
      by (destruct abi; cbv; auto).
    destruct Hs as [Hs | Hs]; rewrite Hs in Hz; Z.div_mod_to_equations; lia. }
  split.
  { intros r Hne. rewrite Hg1, Hregb, Hrega by exact Hne. reflexivity. }
  split; [rewrite Hx1, Hxb, Hxa; reflexivity|].
  split.
  { intros a Ha. rewrite Hm1 by lia. rewrite Hmb. apply Hma. exact Ha. }
  intros a Ha. rewrite Hm1 by lia. rewrite Hmb. apply Hlow. lia.
Qed.

(** X8: what the register save leaves alone.  Entered with the alignment
    the prolog flag announces, [ABI_PushRegistersAndAdjustStack] ends with
    the stack pointer a multiple of 16; it changes no general-purpose
    register other than the stack pointer and no vector register; and it
    writes memory only between the shadow space above the new stack pointer
    and the old stack pointer: nothing at or above the old stack pointer,
    nothing below the new one, and nothing in the Win64 shadow space. *)
Theorem save_keeps_alignment_and_frame (ilen : Instr -> Z) (abi : ABI) (mask : Z)
    (noProlog : bool) (c : Z) (s : Machine) :
  wf_machine (regSize abi) s ->
  regSize abi * Z.of_nat (length (gp_selected mask)) + adjust_size abi mask noProlog
  <= gpr s RSP ->
  (gpr s RSP + (if noProlog then regSize abi else 0)) mod 16 = 0 ->
  exists s1,
    exec (regSize abi) (emits (ABI_PushRegistersAndAdjustStack ilen abi mask noProlog) c) s
    = Some s1 /\
    gpr s1 RSP mod 16 = 0 /\
    (forall r, r <> RSP -> gpr s1 r = gpr s r) /\
    xmm s1 = xmm s /\
    (forall a, gpr s RSP <= a -> mem s1 a = mem s a) /\
    (forall a, a < gpr s1 RSP + shadow_space abi -> mem s1 a = mem s a).
Proof.
  intros Hwf Hroom Hal.
  rewrite (emits_append ilen _ c (push_code abi mask noProlog))
    by (intros e; apply writes_push).
  apply save_frame_machine; assumption.
Qed.

(** X8 on the Win64 build without prolog, for the mask selecting RBX, RSI
    and XMM6, from a stack pointer of 0x7ff8. *)
Lemma save_keeps_alignment_and_frame_witness :
  wf_machine 8 {| gpr := fun r => if r =? RSP then 0x7ff8 else 7;
                  xmm := fun _ => 5; mem := fun _ => 0 |} /\
  8 * Z.of_nat (length (gp_selected 0x400048)) + adjust_size Win64 0x400048 true <= 0x7ff8 /\
  (0x7ff8 + 8) mod 16 = 0 /\
  exists s1,
    exec 8 (emits (ABI_PushRegistersAndAdjustStack (fun _ => 1) Win64 0x400048 true) 0)
      {| gpr := fun r => if r =? RSP then 0x7ff8 else 7;
         xmm := fun _ => 5; mem := fun _ => 0 |} = Some s1 /\
    gpr s1 RSP mod 16 = 0.
Proof.
  assert (Hwf : wf_machine 8 {| gpr := fun r => if r =? RSP then 0x7ff8 else 7;
                                xmm := fun _ => 5; mem := fun _ => 0 |}).
  { split; intros r; cbn [gpr xmm].
    - change (2 ^ (8 * 8)) with 18446744073709551616. destruct (r =? RSP); lia.
    - change (2 ^ 128) with 340282366920938463463374607431768211456. lia. }
  assert (Hroom : 8 * Z.of_nat (length (gp_selected 0x400048)) + adjust_size Win64 0x400048 true
                  <= 0x7ff8) by (vm_compute; discriminate).
  assert (Hal : (0x7ff8 + 8) mod 16 = 0) by reflexivity.
  split; [exact Hwf|]. split; [exact Hroom|]. split; [exact Hal|].
  destruct (save_keeps_alignment_and_frame (fun _ => 1) Win64 0x400048 true 0 _ Hwf Hroom Hal)
    as (s1 & Hex & Hmod & _).
  exists s1. split; [exact Hex | exact Hmod].
Defined.

Lemma wrap_mod_16 (w v : Z) : 0 < w -> wrap w v mod 16 = v mod 16.
Proof.
  intros Hw. unfold wrap. apply Z.mod_mod_divide.
  exists (2 ^ (8 * w - 4)). change 16 with (2 ^ 4).
  rewrite <- Z.pow_add_r by lia. f_equal. lia.
Qed.

Lemma exec_vec_loads_frame (w : Z) (l : list Z) :
  0 < w ->
  forall off s,
    l = [] \/ (gpr s RSP + off) mod 16 = 0 ->
    exists s',
      exec w (vec_loads off l) s = Some s' /\
      gpr s' = gpr s /\ mem s' = mem s /\
      (forall x, ~ In x l -> xmm s' x = xmm s x).
Proof.
  intros Hw. induction l as [| x l IH]; intros off s Hal.
  - exists s. cbn [vec_loads exec]. repeat split.
  - destruct Hal as [Hnil | Hal]; [discriminate Hnil|].
    destruct (IH (off + 16) (set_xmm x (load_bytes 16 (wrap w (gpr s RSP + off)) (mem s)) s))
      as (s' & Hex & Hg & Hm & Hx).
    { right. cbn [set_xmm gpr]. replace (gpr s RSP + (off + 16)) with (gpr s RSP + off + 16) by lia.
      rewrite <- Z.add_mod_idemp_l, Hal by lia. reflexivity. }
    exists s'. cbn [vec_loads exec exec_instr]. rewrite wrap_mod_16, Hal by exact Hw.
    cbn [Z.eqb]. split; [exact Hex|]. split; [exact Hg|]. split; [exact Hm|].
    intros y Hnin. rewrite Hx by (intros H; apply Hnin; right; exact H).
    cbn [set_xmm xmm]. destruct (Z.eqb_spec y x) as [-> | Hne]; [|reflexivity].
    exfalso. apply Hnin. left. reflexivity.
Qed.

Lemma exec_adjust_add_frame (abi : ABI) (mask : Z) (noProlog : bool) (s : Machine) :
  exists s',
    exec (regSize abi) (adjust_add abi mask noProlog) s = Some s' /\
    (forall r, r <> RSP -> gpr s' r = gpr s r) /\
    xmm s' = xmm s /\ mem s' = mem s.
Proof.
  unfold adjust_add. cbv zeta.
  pose proof (adjust_size_range abi mask noProlog) as Hr.
  destruct (adjust_size abi mask noProlog =? 0).
  - exists s. cbn [exec]. repeat split.
  - destruct (sext_adjust_imm _ Hr) as (ib & -> & Hib & Hsx).
    eexists. cbn [exec exec_instr].
    rewrite (Z.mul_comm (regSize abi) 8), Z.eqb_refl, Hib. cbn [andb].
    split; [reflexivity|].
    split; [intros r Hne; apply gpr_set_gpr_other; exact Hne|].
    split; reflexivity.
Qed.

Lemma exec_pops_total (w : Z) (l : list Z) :
  forall s, exists s',
    exec w (map iPOP l) s = Some s' /\ xmm s' = xmm s /\ mem s' = mem s.
Proof.
  induction l as [| r l IH]; intros s.
  - exists s. repeat split.
  - cbn [map exec exec_instr].
    destruct (IH (set_gpr r (load_bytes (Z.to_nat w) (gpr s RSP) (mem s))
                    (set_gpr RSP (wrap w (gpr s RSP + w)) s))) as (s' & Hex & Hx & Hm).
    exists s'. split; [exact Hex|]. split; [rewrite Hx | rewrite Hm]; reflexivity.
Qed.

Lemma restore_frame_machine (abi : ABI) (mask : Z) (noProlog : bool) (s : Machine) :
  vec_selected mask = [] \/ (gpr s RSP + shadow_space abi) mod 16 = 0 ->
  exists s',
    exec (regSize abi) (pop_code abi mask noProlog) s = Some s' /\
    mem s' = mem s /\
    (forall r, r <> RSP -> ~ In r (gp_selected mask) -> gpr s' r = gpr s r) /\
    (forall x, ~ In x (vec_selected mask) -> xmm s' x = xmm s x).
Proof.
  intros Hal.
  assert (Hw : 0 < regSize abi) by (destruct (regSize_cases abi); lia).
  destruct (exec_vec_loads_frame (regSize abi) (vec_selected mask) Hw (shadow_space abi) s Hal)
    as (sa & Hexa & Hga & Hma & Hxa).
  destruct (exec_adjust_add_frame abi mask noProlog sa) as (sb & Hexb & Hgb & Hxb & Hmb).
  destruct (exec_pops_total (regSize abi) (rev (gp_selected mask)) sb) as (s' & Hex & Hx & Hm).
  exists s'. split.
  { unfold pop_code. rewrite exec_app, Hexa. cbv beta iota.
    rewrite exec_app, Hexb. exact Hex. }
  split; [rewrite Hm, Hmb, Hma; reflexivity|].
  split.
  - intros r Hne Hnin.
    rewrite (exec_pops_frame _ _ _ _ Hex r Hne) by (rewrite <- in_rev; exact Hnin).
    rewrite Hgb by exact Hne. rewrite Hga. reflexivity.
  - intros x Hnin. rewrite Hx, Hxb. apply Hxa. exact Hnin.
Qed.

(** X9: what the register restore leaves alone.  From any state whose
    stack pointer plus the shadow space is a multiple of 16 (needed only
    when a vector register is selected),
    [ABI_PopRegistersAndAdjustStack] runs to the end, writes no memory, and
    changes no general-purpose register other than the stack pointer and
    the selected ones, and no vector register other than the selected
    ones. *)
Theorem restore_touches_selected_only (ilen : Instr -> Z) (abi : ABI) (mask : Z)
    (noProlog : bool) (c : Z) (s : Machine) :
  vec_selected mask = [] \/ (gpr s RSP + shadow_space abi) mod 16 = 0 ->
  exists s',
    exec (regSize abi) (emits (ABI_PopRegistersAndAdjustStack ilen abi mask noProlog) c) s
    = Some s' /\
    mem s' = mem s /\
    (forall r, r <> RSP -> ~ (0 <= r < 16 /\ mask_has mask r = true) ->
               gpr s' r = gpr s r) /\
    (forall x, ~ (0 <= x < 16 /\ mask_has mask (16 + x) = true) ->
               xmm s' x = xmm s x).
Proof.
  intros Hal.
  rewrite (emits_append ilen _ c (pop_code abi mask noProlog))
    by (intros e; apply writes_pop).
  destruct (restore_frame_machine abi mask noProlog s Hal) as (s' & Hex & Hm & Hg & Hx).
  exists s'. split; [exact Hex|]. split; [exact Hm|]. split.
  - intros r Hne Hsel. apply Hg; [exact Hne|].
    intros Hin. apply Hsel. apply (in_selected (mask_has mask)). exact Hin.
  - intros x Hsel. apply Hx. intros Hin. apply Hsel.
    apply (in_selected (fun x => mask_has mask (16 + x))). exact Hin.
Qed.

(** X9 on the Unix64 build for the mask selecting RAX, RBX, XMM0 and XMM1,
    from a stack pointer of 0x7fc0. *)
Lemma restore_touches_selected_only_witness :
  (vec_selected 0x30009 = [] \/ (0x7fc0 + shadow_space Unix64) mod 16 = 0) /\
  exists s',
    exec 8 (emits (ABI_PopRegistersAndAdjustStack (fun _ => 1) Unix64 0x30009 true) 0)
      {| gpr := fun _ => 0x7fc0; xmm := fun _ => 5; mem := fun _ => 0 |} = Some s' /\
    mem s' = (fun _ => 0).
Proof.
  assert (Hal : vec_selected 0x30009 = [] \/ (0x7fc0 + shadow_space Unix64) mod 16 = 0)
    by (right; reflexivity).
  split; [exact Hal|].
  destruct (restore_touches_selected_only (fun _ => 1) Unix64 0x30009 true 0
              {| gpr := fun _ => 0x7fc0; xmm := fun _ => 5; mem := fun _ => 0 |} Hal)
    as (s' & Hex & Hm & _).
  exists s'. split; [exact Hex | exact Hm].
Defined.

(** * The 64-bit call-site builder: register arguments *)

Lemma x64_no_prolog_site (ilen : Instr -> Z) (abi : ABI) (func : Z) (cs : All64.CallSite)
    (c : Z) :
  M_X64 abi = true -> site_noProlog cs = false ->
  emits (All64.emit_call_site ilen abi func cs) c
  = arg_moves abi cs ++ call_sequence func (advance ilen c (arg_moves abi cs)).
Proof.
  intros H64 Hnp. unfold emits. rewrite call_site_append. cbn [code emitted app].
  unfold call_prolog. rewrite Hnp.
  destruct (align_restore_x64_frame_0 abi H64) as [-> ->].
  cbn [app]. rewrite app_nil_r. reflexivity.
Qed.

(** X10: for every pair of source registers other than the exchanged pair
    ([reg1] the second argument register and [reg2] the first), the moves
    of the 64-bit [ABI_CallFunctionRR] leave the value of [reg1] in the
    first argument register and the value of [reg2] in the second; no move
    is written exactly when both sources are already in place. *)
Theorem CallFunctionRR_delivers (ilen : Instr -> Z) (abi : ABI) (func : Z)
    (reg1 reg2 : Z) (c : Z) (s : Machine) :
  M_X64 abi = true ->
  ~ (reg1 = ABI_PARAM2 abi /\ reg2 = ABI_PARAM1 abi) ->
  let moves := arg_moves abi (All64.CallRR reg1 reg2 false) in
  emits (All64.ABI_CallFunctionRR ilen abi func reg1 reg2 false) c
  = moves ++ (if fits_rel32 func (advance ilen c moves) then [iCALL func]
              else [iMOV 64 (R RAX) (Imm 64 (u64 func)); iCALLptr (R RAX)]) /\
  (moves = [] <-> reg1 = ABI_PARAM1 abi /\ reg2 = ABI_PARAM2 abi) /\
  exists s',
    exec 8 moves s = Some s' /\
    u64 (gpr s' (ABI_PARAM1 abi)) = u64 (gpr s reg1) /\
    u64 (gpr s' (ABI_PARAM2 abi)) = u64 (gpr s reg2).
Proof.
  intros H64 Hswap. cbv zeta.
  split.
  { exact (x64_no_prolog_site ilen abi func (All64.CallRR reg1 reg2 false) c H64 eq_refl). }
  split.
  { assert (Hne : ABI_PARAM1 abi <> ABI_PARAM2 abi) by (destruct abi; discriminate).
    cbn [arg_moves]. cbv zeta. unfold move_unless.
    destruct (Z.eqb_spec reg2 (ABI_PARAM1 abi));
      destruct (Z.eqb_spec reg1 (ABI_PARAM1 abi));
      destruct (Z.eqb_spec reg2 (ABI_PARAM2 abi));
      cbn [app]; split; intros H; try discriminate H; try reflexivity;
      try (destruct H; congruence); try (split; congruence). }
  apply CallFunctionRR_moves_deliver; assumption.
Qed.

(** X10 on the Unix64 build with [reg1 = RAX] and [reg2 = RDI]: the second
    argument is moved out of RDI before the first is moved in. *)
Lemma CallFunctionRR_delivers_witness :
  M_X64 Unix64 = true /\
  ~ (RAX = ABI_PARAM2 Unix64 /\ RDI = ABI_PARAM1 Unix64) /\
  emits (All64.ABI_CallFunctionRR (fun _ => 1) Unix64 0x2000 RAX RDI false) 0x1000
  = [iMOV 64 (R RSI) (R RDI); iMOV 64 (R RDI) (R RAX); iCALL 0x2000].
Proof.
  assert (Hsw : ~ (RAX = ABI_PARAM2 Unix64 /\ RDI = ABI_PARAM1 Unix64))
    by (intros [H _]; discriminate H).
  split; [reflexivity|]. split; [exact Hsw|].
  exact (proj1 (CallFunctionRR_delivers (fun _ => 1) Unix64 0x2000 RAX RDI 0x1000
                  {| gpr := fun _ => 0; xmm := fun _ => 0; mem := fun _ => 0 |}
                  eq_refl Hsw)).
Defined.

Lemma register_operand_moves (abi : ABI) (reg param2 : Z) (s : Machine) :
  M_X64 abi = true ->
  (exists s',
     exec 8 (arg_moves abi (All64.CallAC (R reg) param2)) s = Some s' /\
     u32 (gpr s' (ABI_PARAM1 abi)) = u32 (gpr s reg) /\
     gpr s' (ABI_PARAM2 abi) = u32 param2) /\
  (exists s',
     exec 8 (arg_moves abi (All64.CallA (R reg))) s = Some s' /\
     u32 (gpr s' (ABI_PARAM1 abi)) = u32 (gpr s reg)).
Proof.
  intros H64.
  assert (Hne : ABI_PARAM1 abi <> ABI_PARAM2 abi) by (destruct abi; discriminate).
  assert (Hu : forall v, u32 (v mod 2 ^ 32) = u32 v) by (intros v; apply u32_idem).
  cbn [arg_moves IsSimpleReg]. cbv zeta. unfold move_unless, Imm32.
  split; destruct (Z.eqb_spec reg (ABI_PARAM1 abi)) as [-> | Hr];
    cbn [app exec];
    rewrite ?exec_mov_reg by (left; reflexivity); rewrite ?exec_mov32_imm;
    eexists; (split; [reflexivity|]);
    rewrite ?gpr_set_gpr, ?Z.eqb_refl;
    repeat match goal with
           | |- context [?a =? ?b] => destruct (Z.eqb_spec a b); try congruence
           end;
    rewrite ?Hu; try split; reflexivity.
Qed.

(** X11: the 64-bit [ABI_CallFunctionAC] and [ABI_CallFunctionA] called
    with a register operand deliver it for every register: the low 32 bits
    of the register end in the first argument register (no move is needed
    when it is that register, and a source in the second argument register
    is read before the immediate overwrites it), and [ABI_CallFunctionAC]
    leaves [param2] in the second argument register. *)
Theorem CallFunctionAC_register_operand (ilen : Instr -> Z) (abi : ABI) (func : Z)
    (reg param2 : Z) (c : Z) (s : Machine) :
  M_X64 abi = true ->
  let movesAC := arg_moves abi (All64.CallAC (R reg) param2) in
  let movesA := arg_moves abi (All64.CallA (R reg)) in
  emits (All64.ABI_CallFunctionAC ilen abi func (R reg) param2) c
  = movesAC ++ call_sequence func (advance ilen c movesAC) /\
  emits (All64.ABI_CallFunctionA ilen abi func (R reg)) c
  = movesA ++ call_sequence func (advance ilen c movesA) /\
  (exists s',
     exec 8 movesAC s = Some s' /\
     u32 (gpr s' (ABI_PARAM1 abi)) = u32 (gpr s reg) /\
     gpr s' (ABI_PARAM2 abi) = u32 param2) /\
  (exists s',
     exec 8 movesA s = Some s' /\
     u32 (gpr s' (ABI_PARAM1 abi)) = u32 (gpr s reg)).
Proof.
  intros H64. cbv zeta.
  split.
  { exact (x64_no_prolog_site ilen abi func (All64.CallAC (R reg) param2) c H64 eq_refl). }
  split.
  { exact (x64_no_prolog_site ilen abi func (All64.CallA (R reg)) c H64 eq_refl). }
  apply register_operand_moves. exact H64.
Qed.

(** X11 on the Win64 build with the operand in RDX, the second argument
    register. *)
Lemma CallFunctionAC_register_operand_witness :
  M_X64 Win64 = true /\
  emits (All64.ABI_CallFunctionAC (fun _ => 1) Win64 0x2000 (R RDX) 5) 0x1000
  = [iMOV 32 (R RCX) (R RDX); iMOV 32 (R RDX) (Imm 32 5); iCALL 0x2000].
Proof.
  split; [reflexivity|].
  exact (proj1 (CallFunctionAC_register_operand (fun _ => 1) Win64 0x2000 RDX 5 0x1000
                  {| gpr := fun _ => 0; xmm := fun _ => 0; mem := fun _ => 0 |} eq_refl)).
Defined.
